(** * Location-and-Map: the place store and the add/edit/delete flow

    A shallow embedding of the React Native application (the [App]
    component and the [useLocation] hook) as an event-driven state
    machine, and the properties of its save, edit, delete, map-tap,
    recenter and permission flows. *)

From Stdlib Require Import ZArith NArith Ascii String.
From Stdlib Require Import Floats.PrimFloat.
From stdpp Require Import base list strings pretty.

Set Warnings "-inexact-float".

(** ** JavaScript built-ins used by the program *)

(** A JavaScript string is a sequence of UTF-16 code units; [===] on
    strings is equality of these sequences. *)
Abbreviation jsstring := (list N).

Module JS.

(** The code units of an ASCII literal of the source. *)
Definition lit (s : string) : jsstring :=
  N_of_ascii <$> String.list_ascii_of_string s.

(** ECMAScript [WhiteSpace] and [LineTerminator] code points, the ones
    [String.prototype.trim] strips; all lie in the basic plane, so a code
    unit decides it. *)
Definition isWhiteSpace (c : N) : bool :=
  ((9 <=? c) && (c <=? 13) || (c =? 32) || (c =? 160) || (c =? 5760)
   || (8192 <=? c) && (c <=? 8202) || (c =? 8232) || (c =? 8233)
   || (c =? 8239) || (c =? 8287) || (c =? 12288) || (c =? 65279))%N.

Fixpoint trimStart (s : jsstring) : jsstring :=
  match s with
  | c :: s' => if isWhiteSpace c then trimStart s' else s
  | [] => []
  end.

Definition trimEnd (s : jsstring) : jsstring :=
  reverse (trimStart (reverse s)).

Definition trim (s : jsstring) : jsstring := trimEnd (trimStart s).

(** [!s] for a string: only the empty string is falsy. *)
Definition not_string (s : jsstring) : bool :=
  match s with [] => true | _ :: _ => false end.

(** [!x] for an object-or-null value: every object is truthy. *)
Definition not_object {A} (x : option A) : bool :=
  match x with None => true | Some _ => false end.

(** [s || ""]: the empty string is the only falsy string. *)
Definition or_empty (s : jsstring) : jsstring :=
  if not_string s then lit "" else s.

(** [n.toString()] for an integral Number in the range of [Date.now()]:
    its decimal digits, with a leading minus sign when negative. *)
Definition Number_toString (n : Z) : jsstring := lit (pretty n).

End JS.

(** ** Data model ([types.ts] and the library types the program reads) *)

Module Coordinate.
Record t := mk { latitude : float; longitude : float }.
End Coordinate.

Module SavedPlace.
Record t := mk {
  id : jsstring;
  latitude : float;
  longitude : float;
  name : jsstring;
  description : jsstring
}.
End SavedPlace.

(** [Location.LocationObject]: the program reads [coords.latitude] and
    [coords.longitude] only. *)
Module LocationObject.
Record coords_t := mkCoords { latitude : float; longitude : float }.
Record t := mk { coords : coords_t; timestamp : float }.
End LocationObject.

(** The region argument of [animateToRegion]. *)
Module Region.
Record t := mk {
  latitude : float;
  longitude : float;
  latitudeDelta : float;
  longitudeDelta : float
}.
End Region.

Inductive PermissionStatus := granted | denied | undetermined.

Inductive Accuracy := Lowest | Low | Balanced | High | Highest | BestForNavigation.

Module LocationOptions.
Record t := mk { accuracy : Accuracy; timeInterval : Z; distanceInterval : Z }.
End LocationOptions.

(** ** Alert dialogs *)

Inductive ButtonStyle := style_default | style_cancel | style_destructive.

(** The [onPress] closures the program hands to [Alert.alert]. The only one
    is the arrow function of [deletePlace], closed over [id]. *)
Inductive Callback :=
| DeleteConfirmed (id : jsstring).

Module AlertButton.
Record t := mk {
  text : jsstring;
  style : option ButtonStyle;
  onPress : option Callback
}.
End AlertButton.

Module Alert.
Record t := mk {
  title : jsstring;
  message : jsstring;
  buttons : list AlertButton.t
}.

(** With no button given the dialog shows a single "OK". *)
Definition shownButtons (a : t) : list AlertButton.t :=
  match buttons a with
  | [] => [AlertButton.mk (JS.lit "OK") None None]
  | bs => bs
  end.
End Alert.

(** ** React state *)

(** The [useState] cells of [useLocation] (the first two) and of [App]. *)
Record State := mkState {
  location : option LocationObject.t;
  errorMsg : option jsstring;
  savedPlaces : list SavedPlace.t;
  addModalVisible : bool;
  listModalVisible : bool;
  newPlaceName : jsstring;
  newPlaceDesc : jsstring;
  selectedLocation : option Coordinate.t;
  isTracking : bool
}.

(** The initial values given to [useState]. *)
Definition initialState : State :=
  {| location := None;
     errorMsg := None;
     savedPlaces := [];
     addModalVisible := false;
     listModalVisible := false;
     newPlaceName := JS.lit "";
     newPlaceDesc := JS.lit "";
     selectedLocation := None;
     isTracking := true |}.

Definition initialRegion : Region.t :=
  Region.mk 17.803266 102.747888 0.01 0.01.

(** ** What a handler does: queued state updates and platform calls *)

Inductive Cmd :=
| SetState (u : State → State)
| Alert_alert (a : Alert.t)
| animateToRegion (r : Region.t) (duration : Z)
| watchPositionAsync (o : LocationOptions.t).

(** The state setters. [setSavedPlaces] is only ever called with an updater
    function, which React applies to the latest store. *)
Definition setLocation (v : option LocationObject.t) : Cmd :=
  SetState (λ s, mkState v (errorMsg s) (savedPlaces s) (addModalVisible s)
    (listModalVisible s) (newPlaceName s) (newPlaceDesc s)
    (selectedLocation s) (isTracking s)).

Definition setErrorMsg (v : option jsstring) : Cmd :=
  SetState (λ s, mkState (location s) v (savedPlaces s) (addModalVisible s)
    (listModalVisible s) (newPlaceName s) (newPlaceDesc s)
    (selectedLocation s) (isTracking s)).

Definition setSavedPlaces (f : list SavedPlace.t → list SavedPlace.t) : Cmd :=
  SetState (λ s, mkState (location s) (errorMsg s) (f (savedPlaces s))
    (addModalVisible s) (listModalVisible s) (newPlaceName s)
    (newPlaceDesc s) (selectedLocation s) (isTracking s)).

Definition setAddModalVisible (v : bool) : Cmd :=
  SetState (λ s, mkState (location s) (errorMsg s) (savedPlaces s) v
    (listModalVisible s) (newPlaceName s) (newPlaceDesc s)
    (selectedLocation s) (isTracking s)).

Definition setListModalVisible (v : bool) : Cmd :=
  SetState (λ s, mkState (location s) (errorMsg s) (savedPlaces s)
    (addModalVisible s) v (newPlaceName s) (newPlaceDesc s)
    (selectedLocation s) (isTracking s)).

Definition setNewPlaceName (v : jsstring) : Cmd :=
  SetState (λ s, mkState (location s) (errorMsg s) (savedPlaces s)
    (addModalVisible s) (listModalVisible s) v (newPlaceDesc s)
    (selectedLocation s) (isTracking s)).

Definition setNewPlaceDesc (v : jsstring) : Cmd :=
  SetState (λ s, mkState (location s) (errorMsg s) (savedPlaces s)
    (addModalVisible s) (listModalVisible s) (newPlaceName s) v
    (selectedLocation s) (isTracking s)).

Definition setSelectedLocation (v : option Coordinate.t) : Cmd :=
  SetState (λ s, mkState (location s) (errorMsg s) (savedPlaces s)
    (addModalVisible s) (listModalVisible s) (newPlaceName s)
    (newPlaceDesc s) v (isTracking s)).

Definition setIsTracking (v : bool) : Cmd :=
  SetState (λ s, mkState (location s) (errorMsg s) (savedPlaces s)
    (addModalVisible s) (listModalVisible s) (newPlaceName s)
    (newPlaceDesc s) (selectedLocation s) v).

(** ** The running application *)

(** The React state together with what lives outside it: the map ref, the
    suspended permission request, the position subscription, the dialogs on
    screen and the camera animations requested so far. *)
Record World := mkWorld {
  state : State;
  mapRef_current : bool;          (* [mapRef.current] is set *)
  permissionPending : bool;       (* the [await] of the permission request has not resumed *)
  watching : bool;                (* [watchPositionAsync] has been called *)
  alerts : list Alert.t;          (* dialogs shown and not yet answered, oldest first *)
  camera : list (Region.t * Z)    (* [animateToRegion] calls, oldest first *)
}.

Definition exec (w : World) (c : Cmd) : World :=
  match c with
  | SetState u =>
      mkWorld (u (state w)) (mapRef_current w) (permissionPending w)
        (watching w) (alerts w) (camera w)
  | Alert_alert a =>
      mkWorld (state w) (mapRef_current w) (permissionPending w)
        (watching w) (alerts w ++ [a]) (camera w)
  | animateToRegion r d =>
      mkWorld (state w) (mapRef_current w) (permissionPending w)
        (watching w) (alerts w) (camera w ++ [(r, d)])
  | watchPositionAsync _ =>
      mkWorld (state w) (mapRef_current w) (permissionPending w)
        true (alerts w) (camera w)
  end.

Definition execAll (w : World) (cs : list Cmd) : World := foldl exec w cs.

(** ** The handlers of [App]

    A handler reads the state of the render it was created in and the map
    ref, and returns the calls it makes, in order. *)

Definition handleMapPress (coordinate : Coordinate.t) : list Cmd :=
  [ setSelectedLocation (Some coordinate);
    setAddModalVisible true;
    setIsTracking false ].

Definition recenterMap (w : World) : list Cmd :=
  match mapRef_current w, location (state w) with
  | true, Some loc =>
      [ animateToRegion
          (Region.mk (LocationObject.latitude (LocationObject.coords loc))
                     (LocationObject.longitude (LocationObject.coords loc))
                     0.01 0.01)
          1000;
        setIsTracking true ]
  | _, _ => []
  end.

Definition closeAddModal : list Cmd :=
  [ setAddModalVisible false;
    setSelectedLocation None;
    setNewPlaceName (JS.lit "");
    setNewPlaceDesc (JS.lit "") ].

(** [selectedLocation || { latitude: location!.coords.latitude, ... }]. The
    [!] is erased at run time: with both operands null the property read
    throws, which [None] stands for. *)
Definition targetLocation (s : State) : option Coordinate.t :=
  match selectedLocation s with
  | Some c => Some c
  | None =>
      match location s with
      | Some loc =>
          Some (Coordinate.mk
                  (LocationObject.latitude (LocationObject.coords loc))
                  (LocationObject.longitude (LocationObject.coords loc)))
      | None => None
      end
  end.

(** [now] is the value [Date.now()] returns during the call. *)
Definition saveCurrentPlace (now : Z) (w : World) : list Cmd :=
  let s := state w in
  if JS.not_object (selectedLocation s) && JS.not_object (location s) then []
  else if JS.not_string (JS.trim (newPlaceName s)) then
    [ Alert_alert (Alert.mk (JS.lit "Missing Name") (JS.lit "Please enter a name.") []) ]
  else
    match targetLocation s with
    | None => []
    | Some target =>
        let newPlace :=
          SavedPlace.mk (JS.Number_toString now)
            (Coordinate.latitude target) (Coordinate.longitude target)
            (newPlaceName s) (newPlaceDesc s) in
        setSavedPlaces (λ prev, prev ++ [newPlace]) :: closeAddModal
    end.

Definition goToPlace (place : SavedPlace.t) (w : World) : list Cmd :=
  setListModalVisible false ::
  if mapRef_current w then
    [ animateToRegion
        (Region.mk (SavedPlace.latitude place) (SavedPlace.longitude place)
                   0.01 0.01)
        1000;
      setIsTracking false ]
  else [].

Definition deletePlace (id : jsstring) : list Cmd :=
  [ Alert_alert
      (Alert.mk (JS.lit "Delete Place")
         (JS.lit "Are you sure you want to delete this place?")
         [ AlertButton.mk (JS.lit "Cancel") (Some style_cancel) None;
           AlertButton.mk (JS.lit "Delete") (Some style_destructive)
             (Some (DeleteConfirmed id)) ]) ].

(** The body of a closure passed as [onPress]. *)
Definition callback (cb : Callback) : list Cmd :=
  match cb with
  | DeleteConfirmed id =>
      [ setSavedPlaces (λ prev, filter (λ p, SavedPlace.id p ≠ id) prev) ]
  end.

(** [savedPlaces.find((p) => p.id === id)]. *)
Definition findPlace (id : jsstring) (l : list SavedPlace.t) : option SavedPlace.t :=
  snd <$> list_find (λ p, SavedPlace.id p = id) l.

Definition editPlace (id : jsstring) (w : World) : list Cmd :=
  match findPlace id (savedPlaces (state w)) with
  | None => []
  | Some place =>
      [ setNewPlaceName (SavedPlace.name place);
        setNewPlaceDesc (JS.or_empty (SavedPlace.description place));
        setSelectedLocation
          (Some (Coordinate.mk (SavedPlace.latitude place)
                               (SavedPlace.longitude place)));
        setAddModalVisible true;
        setSavedPlaces (λ prev, filter (λ p, SavedPlace.id p ≠ id) prev);
        setIsTracking false ]
  end.

(** The add button's inline [onPress]. *)
Definition addFab_onPress : list Cmd :=
  [ setSelectedLocation None; setAddModalVisible true ].

(** ** The [useLocation] hook *)

(** The rest of the effect's async function, run when the permission
    request resolves with [status]. *)
Definition useLocation_resume (status : PermissionStatus) : list Cmd :=
  match status with
  | granted =>
      [ watchPositionAsync (LocationOptions.mk High 3000 5) ]
  | _ =>
      [ setErrorMsg (Some (JS.lit "Permission to access location was denied"));
        Alert_alert
          (Alert.mk (JS.lit "Permission Denied")
             (JS.lit "Cannot access location.") []) ]
  end.

(** The callback given to [watchPositionAsync]. *)
Definition onPosition (loc : LocationObject.t) : list Cmd :=
  [ setLocation (Some loc) ].

(** ** Events and the step function *)

Inductive Event :=
| MapPress (coordinate : Coordinate.t)     (* [onPress] of the map *)
| RecenterPress                            (* the recenter button *)
| AddPress                                 (* the add button *)
| ListPress                                (* the list button *)
| ListClose                                (* close icon or back on the list modal *)
| ChangeName (text : jsstring)             (* [onChangeText] of the name input *)
| ChangeDesc (text : jsstring)             (* [onChangeText] of the description input *)
| CancelPress                              (* Cancel, close icon or back on the add modal *)
| SavePress (now : Z)                      (* Save, with what [Date.now()] returns *)
| RowPress (place : SavedPlace.t)          (* tapping a list row *)
| RowEdit (id : jsstring)                  (* the row's edit action *)
| RowDelete (id : jsstring)                (* the row's delete action *)
| AlertPress (k : nat)                     (* button [k] of the dialog on screen *)
| PermissionResolved (status : PermissionStatus)
| PositionUpdate (loc : LocationObject.t). (* a sample from the location service *)

(** The handler an event of the rendered tree is wired to. *)
Definition handler (w : World) (ev : Event) : list Cmd :=
  match ev with
  | MapPress c => handleMapPress c
  | RecenterPress => recenterMap w
  | AddPress => addFab_onPress
  | ListPress => [ setListModalVisible true ]
  | ListClose => [ setListModalVisible false ]
  | ChangeName t => [ setNewPlaceName t ]
  | ChangeDesc t => [ setNewPlaceDesc t ]
  | CancelPress => closeAddModal
  | SavePress now => saveCurrentPlace now w
  | RowPress p => goToPlace p w
  | RowEdit id => editPlace id w
  | RowDelete id => deletePlace id
  | _ => []
  end.

Definition setAlerts (l : list Alert.t) (w : World) : World :=
  mkWorld (state w) (mapRef_current w) (permissionPending w) (watching w)
    l (camera w).

Definition setPermissionPending (b : bool) (w : World) : World :=
  mkWorld (state w) (mapRef_current w) b (watching w) (alerts w) (camera w).

(** Answering the dialog on screen dismisses it and runs the pressed
    button's [onPress], if it has one. *)
Definition answerAlert (k : nat) (w : World) : World :=
  match alerts w with
  | [] => w
  | a :: rest =>
      match Alert.shownButtons a !! k with
      | None => w
      | Some b =>
          execAll (setAlerts rest w)
            (from_option callback [] (AlertButton.onPress b))
      end
  end.

(** The platform delivers the permission result once, to the suspended
    request, and position samples only to a started subscription. *)
Definition step (w : World) (ev : Event) : World :=
  match ev with
  | AlertPress k => answerAlert k w
  | PermissionResolved status =>
      if permissionPending w
      then execAll (setPermissionPending false w) (useLocation_resume status)
      else w
  | PositionUpdate loc =>
      if watching w then execAll w (onPosition loc) else w
  | _ => execAll w (handler w ev)
  end.

Definition run (w : World) (evs : list Event) : World := foldl step w evs.

(** The application once mounted: initial state, the map ref attached (the
    map is rendered unconditionally), and the effect of [useLocation]
    suspended on the permission request. *)
Definition mounted : World :=
  mkWorld initialState true true false [] [].

(** *** What the rendered tree offers

    A modal's children exist only while it is visible; a visible modal or a
    dialog covers what is beneath it. *)
Definition covered (w : World) : bool :=
  addModalVisible (state w) || listModalVisible (state w).

Definition hasId (id : jsstring) (l : list SavedPlace.t) : bool :=
  bool_decide (Exists (λ p, SavedPlace.id p = id) l).

Definition enabled (w : World) (ev : Event) : bool :=
  match ev with
  | PermissionResolved _ => permissionPending w
  | PositionUpdate _ => watching w
  | AlertPress k =>
      match alerts w with
      | [] => false
      | a :: _ => bool_decide (k < length (Alert.shownButtons a))
      end
  | _ =>
      match alerts w with
      | _ :: _ => false
      | [] =>
          match ev with
          | MapPress _ | RecenterPress | AddPress | ListPress => negb (covered w)
          | ChangeName _ | ChangeDesc _ | CancelPress | SavePress _ =>
              addModalVisible (state w)
          | ListClose => listModalVisible (state w)
          | RowPress p =>
              listModalVisible (state w) && hasId (SavedPlace.id p) (savedPlaces (state w))
          | RowEdit id | RowDelete id =>
              listModalVisible (state w) && hasId id (savedPlaces (state w))
          | _ => false
          end
      end
  end.

(** A session: each event is offered by the state it arrives in. *)
Fixpoint session (w : World) (evs : list Event) : bool :=
  match evs with
  | [] => true
  | ev :: evs' => enabled w ev && session (step w ev) evs'
  end.

Definition reachable (w : World) : Prop :=
  ∃ evs, session mounted evs = true ∧ w = run mounted evs.

(** ** What is rendered

    The children the render functions of [App] put on the map, and the rows
    of the list modal. [null] and [false] render nothing. *)

Inductive MapChild :=
| Circle (center : Coordinate.t) (radius : Z) (strokeColor fillColor : jsstring)
| Marker (key : option jsstring) (coordinate : Coordinate.t)
    (title description : option jsstring) (pinColor : jsstring).

Definition renderUserMarker (s : State) : list MapChild :=
  match location s with
  | None => []
  | Some loc =>
      (if isTracking s then
         [ Circle
             (Coordinate.mk (LocationObject.latitude (LocationObject.coords loc))
                            (LocationObject.longitude (LocationObject.coords loc)))
             25 (JS.lit "rgba(66,133,244,0.5)") (JS.lit "rgba(66,133,244,0.3)") ]
       else []) ++
      [ Marker None
          (Coordinate.mk (LocationObject.latitude (LocationObject.coords loc))
                         (LocationObject.longitude (LocationObject.coords loc)))
          (Some (JS.lit "You are here")) (Some (JS.lit "Current Location"))
          (JS.lit "#005becff") ]
  end.

Definition renderSelectedLocationMarker (s : State) : list MapChild :=
  match selectedLocation s with
  | None => []
  | Some c => [ Marker None c None None (JS.lit "#f2ff00ff") ]
  end.

Definition renderSavedPlacesMarkers (s : State) : list MapChild :=
  (λ place,
     Marker (Some (SavedPlace.id place))
       (Coordinate.mk (SavedPlace.latitude place) (SavedPlace.longitude place))
       (Some (SavedPlace.name place)) (Some (SavedPlace.description place))
       (JS.lit "#34A853")) <$> savedPlaces s.

(** The React [key] of a map child, when it has one. *)
Definition childKey (c : MapChild) : option jsstring :=
  match c with
  | Circle _ _ _ _ => None
  | Marker key _ _ _ _ => key
  end.

(** The children of the map, in the order of the JSX. *)
Definition mapChildren (s : State) : list MapChild :=
  renderUserMarker s ++ renderSelectedLocationMarker s ++
  renderSavedPlacesMarkers s.

(** A row of the list: its texts and the events its three touchables
    fire. The subtitle is rendered only for a non-empty description. *)
Module Row.
Record t := mk {
  key : jsstring;
  title : jsstring;
  subtitle : option jsstring;
  onPress : Event;
  onEdit : Event;
  onDelete : Event
}.
End Row.

Definition renderListItem (item : SavedPlace.t) : Row.t :=
  Row.mk (SavedPlace.id item) (SavedPlace.name item)
    (if JS.not_string (SavedPlace.description item) then None
     else Some (SavedPlace.description item))
    (RowPress item) (RowEdit (SavedPlace.id item))
    (RowDelete (SavedPlace.id item)).

(** The body of the list modal: the empty-state message when
    [savedPlaces.length === 0], else the [FlatList] over the store. *)
Inductive ListBody :=
| emptyState
| FlatList (rows : list Row.t).

Definition listBody (s : State) : ListBody :=
  match savedPlaces s with
  | [] => emptyState
  | data => FlatList (renderListItem <$> data)
  end.

Definition rows (s : State) : list Row.t :=
  match listBody s with
  | emptyState => []
  | FlatList rs => rs
  end.

(** ** Vocabulary of the properties *)

Definition blank (s : jsstring) : Prop :=
  Forall (λ c, JS.isWhiteSpace c = true) s.

Definition missingName : Alert.t :=
  Alert.mk (JS.lit "Missing Name") (JS.lit "Please enter a name.") [].

Definition permissionDenied : Alert.t :=
  Alert.mk (JS.lit "Permission Denied") (JS.lit "Cannot access location.") [].

Definition deletePrompt (id : jsstring) : Alert.t :=
  Alert.mk (JS.lit "Delete Place")
    (JS.lit "Are you sure you want to delete this place?")
    [ AlertButton.mk (JS.lit "Cancel") (Some style_cancel) None;
      AlertButton.mk (JS.lit "Delete") (Some style_destructive)
        (Some (DeleteConfirmed id)) ].

(** The state a successful save leaves. *)
Definition saved (now : Z) (target : Coordinate.t) (s : State) : State :=
  mkState (location s) (errorMsg s)
    (savedPlaces s ++
       [ SavedPlace.mk (JS.Number_toString now)
           (Coordinate.latitude target) (Coordinate.longitude target)
           (newPlaceName s) (newPlaceDesc s) ])
    false (listModalVisible s) [] [] None (isTracking s).

Abbreviation removeId id l := (filter (λ p, SavedPlace.id p ≠ id) l).

(** The state [editPlace] leaves when [find] returns [place]. *)
Definition editing (id : jsstring) (place : SavedPlace.t) (s : State) : State :=
  mkState (location s) (errorMsg s) (removeId id (savedPlaces s)) true
    (listModalVisible s) (SavedPlace.name place) (SavedPlace.description place)
    (Some (Coordinate.mk (SavedPlace.latitude place) (SavedPlace.longitude place)))
    false.

Abbreviation ids w := (SavedPlace.id <$> savedPlaces (state w)).

(** The values [Date.now()] returned at the saves of a session, in order. *)
Definition clocks (evs : list Event) : list Z :=
  omap (λ ev, match ev with SavePress now => Some now | _ => None end) evs.

(** What can happen while the form is being filled in: typing in either
    input, and position samples arriving. *)
Definition fillsForm (ev : Event) : bool :=
  match ev with
  | ChangeName _ | ChangeDesc _ | PositionUpdate _ => true
  | _ => false
  end.

(** Until the permission request resolves nothing is subscribed, and
    without a subscription no position is known. *)
Definition hookInv (w : World) : Prop :=
  (permissionPending w = true → watching w = false) ∧
  (watching w = false → location (state w) = None).

(** Once the request has been refused: nothing pending, nothing
    subscribed, no position. *)
Definition refused (w : World) : Prop :=
  permissionPending w = false ∧ watching w = false ∧
  location (state w) = None.

(** While the add/edit modal is closed its form is empty: the modal only
    closes through [closeAddModal], and its inputs exist only while it is
    visible. *)
Definition formInv (w : World) : Prop :=
  addModalVisible (state w) = false →
  newPlaceName (state w) = [] ∧ newPlaceDesc (state w) = [].

(** The position samples of a session, in order. *)
Definition samples (evs : list Event) : list LocationObject.t :=
  omap (λ ev, match ev with PositionUpdate loc => Some loc | _ => None end) evs.

(** While the add/edit modal is closed nothing is selected. *)
Definition selectionInv (w : World) : Prop :=
  addModalVisible (state w) = false → selectedLocation (state w) = None.

(** An error message is the permission-denied text, and comes with no
    pending request and no subscription. *)
Definition errorInv (w : World) : Prop :=
  ∀ m, errorMsg (state w) = Some m →
       m = JS.lit "Permission to access location was denied" ∧
       permissionPending w = false ∧ watching w = false.

(** A place edited and saved again: same name, description and
    coordinate, under the id of the new clock reading. *)
Definition resaved (now : Z) (p : SavedPlace.t) : SavedPlace.t :=
  SavedPlace.mk (JS.Number_toString now) (SavedPlace.latitude p)
    (SavedPlace.longitude p) (SavedPlace.name p) (SavedPlace.description p).

(** *** Sample data and sessions *)

Definition here : LocationObject.t :=
  LocationObject.mk (LocationObject.mkCoords 17.8 102.7) 1700000000000.

Definition cafe_form : World :=
  run mounted [ MapPress (Coordinate.mk 17.80 102.75); ChangeName (JS.lit "Cafe") ].

Definition spaces_form : World :=
  run mounted [ MapPress (Coordinate.mk 17.80 102.75); ChangeName (JS.lit "   ") ].

Definition cafe_saved : World :=
  step cafe_form (SavePress 1700000000000).

Definition place_A : SavedPlace.t :=
  SavedPlace.mk (JS.lit "1000") 17.80 102.75 (JS.lit "A") [].

Definition place_B : SavedPlace.t :=
  SavedPlace.mk (JS.lit "2000") 17.81 102.76 (JS.lit "B") (JS.lit "second").

Definition two_places : World :=
  run mounted
    [ MapPress (Coordinate.mk 17.80 102.75); ChangeName (JS.lit "A");
      SavePress 1000;
      MapPress (Coordinate.mk 17.81 102.76); ChangeName (JS.lit "B");
      ChangeDesc (JS.lit "second"); SavePress 2000;
      ListPress ].

(** A place is saved, opened for editing from the list, the edit is
    cancelled and the list closed; then the add button is pressed. *)
Definition after_cancelled_edit : list Event :=
  [ MapPress (Coordinate.mk 17.80 102.75); ChangeName (JS.lit "Cafe");
    ChangeDesc (JS.lit "good coffee"); SavePress 1700000000000;
    ListPress; RowEdit (JS.lit "1700000000000"); CancelPress; ListClose ].

Definition edit_and_resave : list Event :=
  [ MapPress (Coordinate.mk 17.80 102.75); ChangeName (JS.lit "A");
    SavePress 1000; ListPress; RowEdit (JS.lit "1000");
    ChangeName (JS.lit "A2"); SavePress 2000 ].

(** ** Facts about the built-ins *)

Lemma trimStart_nil (s : jsstring) : JS.trimStart s = [] ↔ blank s.
Proof.
  unfold blank. induction s as [|c s IH]; simpl.
  - split; [constructor | done].
  - destruct (JS.isWhiteSpace c) eqn:Hc.
    + rewrite IH. split; [by constructor | by inversion 1].
    + split; [done | inversion 1; congruence].
Qed.

Lemma trimStart_head (s : jsstring) (c : N) (r : jsstring) :
  JS.trimStart s = c :: r → JS.isWhiteSpace c = false.
Proof.
  induction s as [|d s IH]; simpl; [done|].
  destruct (JS.isWhiteSpace d) eqn:Hd; [done|].
  intros [= <- _]. done.
Qed.

(** [s.trim()] is the empty string exactly when [s] is empty or made of
    white space only. *)
Lemma trim_nil (s : jsstring) : JS.trim s = [] ↔ blank s.
Proof.
  unfold JS.trim, JS.trimEnd. split.
  - intros H. apply (f_equal reverse) in H. rewrite reverse_involutive in H.
    change (reverse []) with (@nil N) in H.
    apply trimStart_nil in H.
    destruct (JS.trimStart s) as [|c r] eqn:Hs; [by apply trimStart_nil|].
    apply trimStart_head in Hs.
    unfold blank in H. rewrite Forall_reverse in H.
    inversion H; congruence.
  - intros H. apply trimStart_nil in H. by rewrite H.
Qed.

Lemma not_trim_blank (s : jsstring) :
  JS.not_string (JS.trim s) = true ↔ blank s.
Proof.
  rewrite <- trim_nil. destruct (JS.trim s); simpl; split; done.
Qed.

Lemma not_trim_filled (s : jsstring) :
  JS.not_string (JS.trim s) = false ↔ ¬ blank s.
Proof.
  rewrite <- not_trim_blank. destruct (JS.not_string _); split; done.
Qed.

Lemma lit_inj : Inj (=) (=) JS.lit.
Proof.
  intros a b H. unfold JS.lit in H.
  rewrite <- (string_of_list_ascii_of_string a),
          <- (string_of_list_ascii_of_string b).
  f_equal. revert H. generalize (list_ascii_of_string b).
  induction (list_ascii_of_string a) as [|x l IH]; intros [|y l']; simpl;
    try done.
  intros [= Hxy Hl]. f_equal; [|by apply IH].
  rewrite <- (ascii_N_embedding x), <- (ascii_N_embedding y). by rewrite Hxy.
Qed.

(** Distinct clock readings give distinct ids. *)
Lemma Number_toString_inj : Inj (=) (=) JS.Number_toString.
Proof.
  intros a b H. unfold JS.Number_toString in H.
  apply lit_inj in H. by apply (inj pretty) in H.
Qed.

Lemma or_empty_id (s : jsstring) : JS.or_empty s = s.
Proof. by destruct s. Qed.

(** ** What one step can change *)

(** Case analysis on the event and on every test its handler makes. *)
Ltac step_cases ev :=
  destruct ev;
  unfold step, handler, answerAlert, handleMapPress, recenterMap,
    addFab_onPress, closeAddModal, saveCurrentPlace, goToPlace, editPlace,
    deletePlace, useLocation_resume, onPosition, from_option, callback;
  repeat case_match; simpl; try done.

Lemma run_snoc (w : World) (evs : list Event) (ev : Event) :
  run w (evs ++ [ev]) = step (run w evs) ev.
Proof. unfold run. by rewrite foldl_snoc. Qed.

Lemma run_app (w : World) (evs1 evs2 : list Event) :
  run w (evs1 ++ evs2) = run (run w evs1) evs2.
Proof. unfold run. by rewrite foldl_app. Qed.

Lemma exec_mapRef (w : World) (c : Cmd) :
  mapRef_current (exec w c) = mapRef_current w.
Proof. by destruct c. Qed.

Lemma execAll_mapRef (cs : list Cmd) (w : World) :
  mapRef_current (execAll w cs) = mapRef_current w.
Proof.
  revert w. induction cs as [|c cs IH]; intros w; [done|].
  unfold execAll in *. simpl. by rewrite IH, exec_mapRef.
Qed.

Lemma step_mapRef (w : World) (ev : Event) :
  mapRef_current (step w ev) = mapRef_current w.
Proof.
  destruct ev; unfold step, answerAlert; repeat case_match;
    by rewrite ?execAll_mapRef.
Qed.

(** The map ref stays attached for the whole session. *)
Lemma run_mapRef (evs : list Event) (w : World) :
  mapRef_current (run w evs) = mapRef_current w.
Proof.
  revert w. induction evs as [|ev evs IH]; intros w; [done|].
  change (run w (ev :: evs)) with (run (step w ev) evs).
  by rewrite IH, step_mapRef.
Qed.

Lemma reachable_mapRef (w : World) : reachable w → mapRef_current w = true.
Proof. intros (evs & _ & ->). by rewrite run_mapRef. Qed.

(** Seen from the hook: only a position sample delivered to a started
    subscription writes [location], only a granted permission starts the
    subscription, and the permission result is consumed once. *)
Lemma step_location (w : World) (ev : Event) :
  location (state (step w ev)) =
  match ev with
  | PositionUpdate loc => if watching w then Some loc else location (state w)
  | _ => location (state w)
  end.
Proof. step_cases ev. Qed.

Lemma step_watching (w : World) (ev : Event) :
  watching (step w ev) =
  match ev with
  | PermissionResolved granted => permissionPending w || watching w
  | _ => watching w
  end.
Proof. step_cases ev. Qed.

Lemma step_permissionPending (w : World) (ev : Event) :
  permissionPending (step w ev) =
  match ev with
  | PermissionResolved _ => false
  | _ => permissionPending w
  end.
Proof. step_cases ev. Qed.

(** One step either keeps a sub-sequence of the store or, for a save,
    appends one entry whose id is the clock reading in decimal. *)
Lemma step_store (w : World) (ev : Event) :
  savedPlaces (state (step w ev)) `sublist_of` savedPlaces (state w) ∨
  ∃ now lat lon n d,
    ev = SavePress now ∧
    savedPlaces (state (step w ev)) =
    savedPlaces (state w) ++ [SavedPlace.mk (JS.Number_toString now) lat lon n d].
Proof.
  step_cases ev;
    first [ by left | left; apply sublist_filter | right; by eauto 10 ].
Qed.

(** Every stored place was there at the start or got its id from a clock
    reading of the session. *)
Lemma run_origin (evs : list Event) (w : World) (q : SavedPlace.t) :
  q ∈ savedPlaces (state (run w evs)) →
  q ∈ savedPlaces (state w) ∨
  ∃ t, t ∈ clocks evs ∧ SavedPlace.id q = JS.Number_toString t.
Proof.
  revert w. induction evs as [|ev evs IH]; intros w Hq; [by left|].
  change (run w (ev :: evs)) with (run (step w ev) evs) in Hq.
  destruct (IH _ Hq) as [Hin | (t & Ht & Hid)].
  - destruct (step_store w ev) as [Hsub | (now & lat & lon & n & d & -> & Hst)].
    + left. by eapply elem_of_sublist.
    + rewrite Hst, elem_of_app, list_elem_of_singleton in Hin.
      destruct Hin as [Hin | ->]; [by left|].
      right. exists now. split; [|done]. simpl. by left.
  - right. exists t. split; [|done].
    unfold clocks in *. simpl. destruct ev; simpl; try done. by right.
Qed.

(** ** The save handler, case by case *)

Lemma targetLocation_None (s : State) :
  targetLocation s = None ↔ selectedLocation s = None ∧ location s = None.
Proof.
  unfold targetLocation.
  destruct (selectedLocation s), (location s); split; try done; by intros [].
Qed.

(** Past the guard of its first line, [saveCurrentPlace] always has a
    target: the non-null assertion never meets [null]. *)
Lemma targetLocation_guard (s : State) :
  JS.not_object (selectedLocation s) && JS.not_object (location s) = false ↔
  is_Some (targetLocation s).
Proof.
  unfold targetLocation, is_Some.
  destruct (selectedLocation s), (location s); simpl; split; try done;
    eauto; by intros [].
Qed.

Lemma save_no_target (w : World) (now : Z) :
  targetLocation (state w) = None → step w (SavePress now) = w.
Proof.
  intros [Hs Hl]%targetLocation_None.
  unfold step, handler, saveCurrentPlace. rewrite Hs, Hl. done.
Qed.

Lemma save_blank (w : World) (now : Z) :
  is_Some (targetLocation (state w)) → blank (newPlaceName (state w)) →
  step w (SavePress now) = exec w (Alert_alert missingName).
Proof.
  intros Ht%targetLocation_guard Hb%not_trim_blank.
  unfold step, handler, saveCurrentPlace. rewrite Ht, Hb. done.
Qed.

Lemma save_filled (w : World) (now : Z) (target : Coordinate.t) :
  targetLocation (state w) = Some target → ¬ blank (newPlaceName (state w)) →
  step w (SavePress now) =
  mkWorld (saved now target (state w)) (mapRef_current w)
    (permissionPending w) (watching w) (alerts w) (camera w).
Proof.
  intros Ht Hb%not_trim_filled.
  assert (is_Some (targetLocation (state w))) as Hg%targetLocation_guard
    by (by rewrite Ht).
  unfold step, handler, saveCurrentPlace. rewrite Hg, Hb, Ht. done.
Qed.

(** ** Saving *)

(** The scenario of the specification: one place saved into the empty store. *)
Example save_cafe :
  savedPlaces (state (run mounted
    [ MapPress (Coordinate.mk 17.80 102.75); ChangeName (JS.lit "Cafe");
      SavePress 1700000000000 ]))
  = [ SavedPlace.mk (JS.lit "1700000000000") 17.80 102.75 (JS.lit "Cafe") (JS.lit "") ].
Proof. vm_compute. reflexivity. Qed.

(** C4. A save whose trimmed name is non-empty uses the selected coordinate
    when there is one, else the live position when it is known; the new
    place, with the current name and description, goes at the end of the
    store, the earlier entries are kept, the modal closes and the selection,
    name and description are cleared. With neither coordinate the save does
    nothing at all: no dialog, no change. *)
Theorem save_filled_name (w : World) (now : Z) :
  ¬ blank (newPlaceName (state w)) →
  let mk_world s :=
    mkWorld s (mapRef_current w) (permissionPending w) (watching w)
      (alerts w) (camera w) in
  (∀ c, selectedLocation (state w) = Some c →
        step w (SavePress now) = mk_world (saved now c (state w))) ∧
  (∀ loc, selectedLocation (state w) = None → location (state w) = Some loc →
        step w (SavePress now) =
        mk_world (saved now
          (Coordinate.mk (LocationObject.latitude (LocationObject.coords loc))
                         (LocationObject.longitude (LocationObject.coords loc)))
          (state w))) ∧
  (selectedLocation (state w) = None → location (state w) = None →
        step w (SavePress now) = w).
Proof.
  intros Hb mk_world. repeat split.
  - intros c Hc. apply save_filled; [|done].
    unfold targetLocation. by rewrite Hc.
  - intros loc Hs Hl. apply save_filled; [|done].
    unfold targetLocation. by rewrite Hs, Hl.
  - intros Hs Hl. apply save_no_target. by apply targetLocation_None.
Qed.

Lemma save_filled_name_witness :
  savedPlaces (state (step cafe_form (SavePress 1700000000000))) =
  [ SavedPlace.mk (JS.lit "1700000000000") 17.80 102.75 (JS.lit "Cafe") [] ].
Proof.
  assert (¬ blank (newPlaceName (state cafe_form))) as H.
  { intros Hb. apply not_trim_blank in Hb. vm_compute in Hb. discriminate. }
  destruct (save_filled_name cafe_form 1700000000000 H) as (Hsel & _ & _).
  rewrite (Hsel (Coordinate.mk 17.80 102.75) eq_refl). vm_compute. reflexivity.
Defined.

(** C1, as the code has it. When the trimmed name is empty and a selected
    coordinate or a live position is available, the save shows the
    "Missing Name" dialog and changes nothing else: the store and the
    modal's visibility are as before. When neither is available the save
    returns before it looks at the name: no dialog, and nothing changes. *)
Theorem save_blank_name (w : World) (now : Z) :
  blank (newPlaceName (state w)) →
  (selectedLocation (state w) ≠ None ∨ location (state w) ≠ None →
     let w' := step w (SavePress now) in
     alerts w' = alerts w ++ [missingName] ∧
     state w' = state w ∧
     savedPlaces (state w') = savedPlaces (state w) ∧
     addModalVisible (state w') = addModalVisible (state w)) ∧
  (selectedLocation (state w) = None ∧ location (state w) = None →
     step w (SavePress now) = w).
Proof.
  intros Hb. split.
  - intros Ht. rewrite save_blank; [done| |done].
    destruct (targetLocation (state w)) eqn:E; [done|].
    apply targetLocation_None in E. tauto.
  - intros Ht. apply save_no_target. by apply targetLocation_None.
Qed.

Lemma save_blank_name_witness :
  alerts (step spaces_form (SavePress 5)) = [missingName] ∧
  savedPlaces (state (step spaces_form (SavePress 5))) = [] ∧
  addModalVisible (state (step spaces_form (SavePress 5))) = true.
Proof.
  assert (blank (newPlaceName (state spaces_form))) as H.
  { apply not_trim_blank. vm_compute. reflexivity. }
  destruct (save_blank_name spaces_form 5 H) as [Hsome _].
  destruct Hsome as (Ha & _ & Hs & Hm).
  { left. vm_compute. discriminate. }
  split; [exact Ha|]. split; [exact Hs | exact Hm].
Defined.

(** C1, as stated, fails: with no selected coordinate and no live position
    (the add button pressed before any position arrived), saving a
    white-space name shows no dialog. *)
Lemma save_blank_name_no_position_no_alert :
  let evs := [ AddPress; ChangeName (JS.lit "   ") ] in
  session mounted (evs ++ [SavePress 5]) = true ∧
  blank (newPlaceName (state (run mounted evs))) ∧
  alerts (step (run mounted evs) (SavePress 5)) = [] ∧
  ¬ (∀ (w : World) (now : Z), blank (newPlaceName (state w)) →
       alerts (step w (SavePress now)) = alerts w ++ [missingName]).
Proof.
  simpl. split; [vm_compute; reflexivity|].
  assert (blank (newPlaceName (state (run mounted
            [ AddPress; ChangeName (JS.lit "   ") ])))) as Hb.
  { apply not_trim_blank. vm_compute. reflexivity. }
  split; [exact Hb|]. split; [vm_compute; reflexivity|].
  intros H. specialize (H _ 5%Z Hb). vm_compute in H. discriminate.
Qed.

(** ** Finding and removing by id *)

Lemma findPlace_None (id : jsstring) (l : list SavedPlace.t) :
  findPlace id l = None ↔ ∀ p, p ∈ l → SavedPlace.id p ≠ id.
Proof.
  unfold findPlace. rewrite fmap_None, list_find_None, Forall_forall. done.
Qed.

(** [find] returns the first entry with the id. *)
Lemma findPlace_first (l1 l2 : list SavedPlace.t) (p : SavedPlace.t) :
  (∀ q, q ∈ l1 → SavedPlace.id q ≠ SavedPlace.id p) →
  findPlace (SavedPlace.id p) (l1 ++ p :: l2) = Some p.
Proof.
  unfold findPlace. induction l1 as [|q l1 IH]; intros H; csimpl.
  - by rewrite decide_True.
  - rewrite decide_False by (apply H; left).
    rewrite <- option_fmap_compose.
    rewrite <- IH by (intros r Hr; apply H; by right).
    by destruct (list_find _ _) as [[]|].
Qed.

Lemma removeId_absent (id : jsstring) (l : list SavedPlace.t) :
  (∀ p, p ∈ l → SavedPlace.id p ≠ id) → removeId id l = l.
Proof.
  induction l as [|q l IH]; intros H; [done|].
  rewrite filter_cons_True by (apply H; left).
  f_equal. apply IH. intros r Hr. apply H. by right.
Qed.

Lemma removeId_only (l1 l2 : list SavedPlace.t) (p : SavedPlace.t) :
  (∀ q, q ∈ l1 ++ l2 → SavedPlace.id q ≠ SavedPlace.id p) →
  removeId (SavedPlace.id p) (l1 ++ p :: l2) = l1 ++ l2.
Proof.
  intros H. rewrite filter_app, filter_cons_False by (intros Hp; by apply Hp).
  rewrite !removeId_absent; [done|..]; intros q Hq; apply H;
    rewrite elem_of_app; auto.
Qed.

(** ** Editing *)

Lemma edit_found (w : World) (id : jsstring) (place : SavedPlace.t) :
  findPlace id (savedPlaces (state w)) = Some place →
  step w (RowEdit id) =
  mkWorld (editing id place (state w)) (mapRef_current w)
    (permissionPending w) (watching w) (alerts w) (camera w).
Proof.
  intros H. unfold step, handler, editPlace. rewrite H.
  unfold editing. rewrite <- (or_empty_id (SavedPlace.description place)) at 2.
  done.
Qed.

(** The edit action leaves no entry with the id it was called on. *)
Lemma edit_clears_id (w : World) (id : jsstring) (q : SavedPlace.t) :
  q ∈ savedPlaces (state (step w (RowEdit id))) → SavedPlace.id q ≠ id.
Proof.
  unfold step, handler, editPlace.
  destruct (findPlace id (savedPlaces (state w))) eqn:E; simpl.
  - rewrite list_elem_of_filter. tauto.
  - intros Hq. by eapply findPlace_None.
Qed.

(** C10. The edit action on an id that no stored place has does nothing:
    the store, the form fields, the selection, the modal and the tracking
    flag, and everything else, stay as they were. *)
Theorem edit_unknown_id (w : World) (id : jsstring) :
  (∀ p, p ∈ savedPlaces (state w) → SavedPlace.id p ≠ id) →
  step w (RowEdit id) = w.
Proof.
  intros H%findPlace_None. unfold step, handler, editPlace. by rewrite H.
Qed.

Lemma edit_unknown_id_witness :
  step cafe_saved (RowEdit (JS.lit "42")) = cafe_saved.
Proof.
  apply edit_unknown_id. intros p Hp.
  vm_compute in Hp. apply list_elem_of_singleton in Hp. subst p.
  vm_compute. discriminate.
Defined.

(** C3, as the code has it. For a stored place whose id no other entry
    shares, the edit action removes exactly that place (the store shrinks by
    one, the other entries keep their order), fills the form with its name
    and description, selects its coordinate and opens the modal. Cancel then
    clears the form and does not put the place back; no later event other
    than a save that generates the same id again brings an entry with that
    id into the store. *)
Theorem edit_removes_place (w : World) (l1 l2 : list SavedPlace.t) (p : SavedPlace.t) :
  savedPlaces (state w) = l1 ++ p :: l2 →
  (∀ q, q ∈ l1 ++ l2 → SavedPlace.id q ≠ SavedPlace.id p) →
  let w1 := step w (RowEdit (SavedPlace.id p)) in
  let w2 := step w1 CancelPress in
  (savedPlaces (state w1) = l1 ++ l2 ∧
   length (savedPlaces (state w1)) + 1 = length (savedPlaces (state w)) ∧
   (p ∉ savedPlaces (state w1)) ∧
   newPlaceName (state w1) = SavedPlace.name p ∧
   newPlaceDesc (state w1) = SavedPlace.description p ∧
   selectedLocation (state w1) =
     Some (Coordinate.mk (SavedPlace.latitude p) (SavedPlace.longitude p)) ∧
   addModalVisible (state w1) = true) ∧
  (savedPlaces (state w2) = l1 ++ l2 ∧
   (p ∉ savedPlaces (state w2)) ∧
   addModalVisible (state w2) = false ∧
   newPlaceName (state w2) = [] ∧
   newPlaceDesc (state w2) = [] ∧
   selectedLocation (state w2) = None) ∧
  (∀ evs : list Event,
     (∀ t, t ∈ clocks evs → JS.Number_toString t ≠ SavedPlace.id p) →
     ∀ q, q ∈ savedPlaces (state (run w2 evs)) →
          SavedPlace.id q ≠ SavedPlace.id p).
Proof.
  intros Hl Hu w1 w2.
  assert (p ∉ l1 ++ l2) as Hp by (intros Hin; by apply (Hu p Hin)).
  assert (w1 = mkWorld (editing (SavedPlace.id p) p (state w)) (mapRef_current w)
            (permissionPending w) (watching w) (alerts w) (camera w)) as Hw1.
  { apply edit_found. rewrite Hl. apply findPlace_first.
    intros q Hq. apply Hu. rewrite elem_of_app. by left. }
  assert (savedPlaces (state w1) = l1 ++ l2) as Hs1.
  { rewrite Hw1. simpl. rewrite Hl. by apply removeId_only. }
  split.
  - split; [done|]. rewrite Hs1, Hl. split.
    { rewrite !length_app. simpl. lia. }
    split; [done|]. by rewrite Hw1.
  - assert (savedPlaces (state w2) = l1 ++ l2) as Hs2 by (by rewrite <- Hs1).
    split; [by rewrite Hs2|].
    intros evs Hevs q [Hq | (t & Ht & ->)]%run_origin.
    + apply Hu. by rewrite <- Hs2.
    + by apply Hevs.
Qed.

Lemma edit_removes_place_witness :
  savedPlaces (state (step cafe_saved (RowEdit (JS.lit "1700000000000")))) = [] ∧
  savedPlaces (state (step (step cafe_saved (RowEdit (JS.lit "1700000000000")))
                        CancelPress)) = [].
Proof.
  pose (p := SavedPlace.mk (JS.lit "1700000000000") 17.80 102.75 (JS.lit "Cafe") []).
  destruct (edit_removes_place cafe_saved [] [] p) as [(H1 & _) [(H2 & _) _]].
  - vm_compute. reflexivity.
  - intros q Hq. by apply elem_of_nil in Hq.
  - split; [exact H1 | exact H2].
Defined.

(** C3, as stated, fails in a store where two entries share an id (two
    saves at one clock reading): the edit action on that id removes both,
    so the store shrinks by two. *)
Lemma edit_removes_every_match :
  let evs :=
    [ MapPress (Coordinate.mk 17.80 102.75); ChangeName (JS.lit "A");
      SavePress 1000;
      MapPress (Coordinate.mk 17.81 102.76); ChangeName (JS.lit "B");
      SavePress 1000; ListPress ] in
  let w := run mounted evs in
  let p := SavedPlace.mk (JS.lit "1000") 17.81 102.76 (JS.lit "B") [] in
  session mounted (evs ++ [RowEdit (SavedPlace.id p)]) = true ∧
  p ∈ savedPlaces (state w) ∧
  length (savedPlaces (state w)) = 2 ∧
  length (savedPlaces (state (step w (RowEdit (SavedPlace.id p))))) = 0 ∧
  newPlaceName (state (step w (RowEdit (SavedPlace.id p)))) = JS.lit "A" ∧
  ¬ (∀ (w : World) (p : SavedPlace.t),
       p ∈ savedPlaces (state w) →
       length (savedPlaces (state (step w (RowEdit (SavedPlace.id p))))) + 1
       = length (savedPlaces (state w))).
Proof.
  intros evs w p.
  assert (p ∈ savedPlaces (state w)) as Hp.
  { assert (savedPlaces (state w) =
            [SavedPlace.mk (JS.lit "1000") 17.80 102.75 (JS.lit "A") []; p])
      as -> by (vm_compute; reflexivity).
    right. left. }
  split; [vm_compute; reflexivity|]. split; [exact Hp|].
  split; [vm_compute; reflexivity|]. split; [vm_compute; reflexivity|].
  split; [vm_compute; reflexivity|].
  intros H. specialize (H w p Hp). vm_compute in H. discriminate.
Qed.


(** ** Deleting *)

Lemma delete_asks (w : World) (id : jsstring) :
  step w (RowDelete id) = exec w (Alert_alert (deletePrompt id)).
Proof. done. Qed.

Lemma delete_confirmed (w : World) (id : jsstring) (rest : list Alert.t) :
  alerts w = deletePrompt id :: rest →
  step w (AlertPress 1) =
  execAll (setAlerts rest w) [ setSavedPlaces (λ prev, removeId id prev) ].
Proof. intros H. unfold step, answerAlert. by rewrite H. Qed.

Lemma delete_cancelled (w : World) (id : jsstring) (rest : list Alert.t) :
  alerts w = deletePrompt id :: rest →
  step w (AlertPress 0) = setAlerts rest w.
Proof. intros H. unfold step, answerAlert. by rewrite H. Qed.

(** C6, as the code has it. The delete action only asks: it puts up the
    prompt with "Cancel" and "Delete" and changes no state. Answering
    "Delete" removes from the store every entry with the given id and no
    other: the store becomes the entries whose id differs, in their order.
    That is exactly one place when no other entry shares the id, and no
    change when no entry has it. Answering "Cancel" changes no state. *)
Theorem delete_place (w : World) (id : jsstring) :
  let w1 := step w (RowDelete id) in
  state w1 = state w ∧ alerts w1 = alerts w ++ [deletePrompt id] ∧
  ∀ (w2 : World) (rest : list Alert.t),
    alerts w2 = deletePrompt id :: rest →
    let old := savedPlaces (state w2) in
    let confirmed := step w2 (AlertPress 1) in
    let new := savedPlaces (state confirmed) in
    (new = removeId id old ∧
     (∀ p, p ∈ new ↔ p ∈ old ∧ SavedPlace.id p ≠ id) ∧
     new `sublist_of` old ∧
     (∀ l1 l2 p, old = l1 ++ p :: l2 → SavedPlace.id p = id →
        (∀ q, q ∈ l1 ++ l2 → SavedPlace.id q ≠ id) → new = l1 ++ l2) ∧
     ((∀ p, p ∈ old → SavedPlace.id p ≠ id) → state confirmed = state w2) ∧
     state confirmed =
       mkState (location (state w2)) (errorMsg (state w2)) new
         (addModalVisible (state w2)) (listModalVisible (state w2))
         (newPlaceName (state w2)) (newPlaceDesc (state w2))
         (selectedLocation (state w2)) (isTracking (state w2)) ∧
     alerts confirmed = rest) ∧
    state (step w2 (AlertPress 0)) = state w2 ∧
    alerts (step w2 (AlertPress 0)) = rest.
Proof.
  intros w1. split; [done|]. split; [done|].
  intros w2 rest Ha old confirmed new.
  assert (new = removeId id old) as Hnew.
  { subst new confirmed. by rewrite (delete_confirmed _ _ _ Ha). }
  split; [|by rewrite (delete_cancelled _ _ _ Ha)].
  split; [done|]. split; [|split; [|split; [|split; [|split]]]].
  - intros p. rewrite Hnew, list_elem_of_filter. tauto.
  - rewrite Hnew. apply sublist_filter.
  - intros l1 l2 p Hold <- Hu. rewrite Hnew, Hold. by apply removeId_only.
  - intros Hu. subst confirmed. rewrite (delete_confirmed _ _ _ Ha). simpl.
    fold old. rewrite (removeId_absent _ _ Hu). by destruct (state w2).
  - rewrite Hnew. subst confirmed. by rewrite (delete_confirmed _ _ _ Ha).
  - subst confirmed. by rewrite (delete_confirmed _ _ _ Ha).
Qed.

Lemma delete_place_witness :
  savedPlaces (state two_places) = [place_A; place_B] ∧
  savedPlaces (state (step (step two_places (RowDelete (JS.lit "1000")))
                        (AlertPress 1))) = [place_B] ∧
  state (step (step two_places (RowDelete (JS.lit "1000"))) (AlertPress 0))
  = state two_places.
Proof.
  split; [vm_compute; reflexivity|].
  destruct (delete_place two_places (JS.lit "1000")) as (Hs & Ha & H).
  destruct (H (step two_places (RowDelete (JS.lit "1000"))) []) as [Hyes Hno].
  { rewrite Ha. vm_compute. reflexivity. }
  destruct Hyes as (_ & _ & _ & Hone & _).
  split.
  - apply (Hone [] [place_B] place_A).
    + vm_compute. reflexivity.
    + reflexivity.
    + intros q Hq. apply list_elem_of_singleton in Hq. subst q.
      vm_compute. discriminate.
  - destruct Hno as [Hno _]. rewrite Hno. exact Hs.
Defined.

(** C6, as stated, fails in a store where two entries share an id (two
    saves at one clock reading): confirming the deletion of that id removes
    both places, not the one. *)
Lemma delete_removes_every_match :
  let evs :=
    [ MapPress (Coordinate.mk 17.80 102.75); ChangeName (JS.lit "A");
      SavePress 1000;
      MapPress (Coordinate.mk 17.81 102.76); ChangeName (JS.lit "B");
      SavePress 1000; ListPress; RowDelete (JS.lit "1000") ] in
  let w := run mounted evs in
  let a := SavedPlace.mk (JS.lit "1000") 17.80 102.75 (JS.lit "A") [] in
  let b := SavedPlace.mk (JS.lit "1000") 17.81 102.76 (JS.lit "B") [] in
  session mounted (evs ++ [AlertPress 1]) = true ∧
  alerts w = [deletePrompt (JS.lit "1000")] ∧
  savedPlaces (state w) = [a; b] ∧
  savedPlaces (state (step w (AlertPress 1))) = [] ∧
  ¬ (∀ (w2 : World) (rest : list Alert.t) (id : jsstring)
       (l1 l2 : list SavedPlace.t) (p : SavedPlace.t),
       alerts w2 = deletePrompt id :: rest →
       savedPlaces (state w2) = l1 ++ p :: l2 → SavedPlace.id p = id →
       savedPlaces (state (step w2 (AlertPress 1))) = l1 ++ l2).
Proof.
  intros evs w a b.
  split; [vm_compute; reflexivity|]. split; [vm_compute; reflexivity|].
  split; [vm_compute; reflexivity|]. split; [vm_compute; reflexivity|].
  intros H. specialize (H w [] (JS.lit "1000") [] [b] a).
  assert (savedPlaces (state (step w (AlertPress 1))) = [b]) as Hb.
  { apply H; vm_compute; reflexivity. }
  vm_compute in Hb. discriminate.
Qed.

(** ** Tapping the map *)

Lemma fillsForm_keeps (evs : list Event) (w : World) :
  Forall (λ ev, fillsForm ev = true) evs →
  selectedLocation (state (run w evs)) = selectedLocation (state w) ∧
  savedPlaces (state (run w evs)) = savedPlaces (state w).
Proof.
  revert w. induction evs as [|ev evs IH]; intros w H; [done|].
  inversion H as [|? ? Hev Hevs]; subst.
  change (run w (ev :: evs)) with (run (step w ev) evs).
  destruct (IH (step w ev) Hevs) as [-> ->].
  destruct ev; try discriminate; simpl; try done.
  by destruct (watching w).
Qed.

(** C7. Tapping the map at a coordinate turns tracking off, makes the
    coordinate the selected location and opens the add/edit modal, touching
    nothing else; and the next save made from that form, with a name that
    is not blank, stores the place at the tapped coordinate. *)
Theorem map_tap (w : World) (c : Coordinate.t) :
  let w' := step w (MapPress c) in
  isTracking (state w') = false ∧
  selectedLocation (state w') = Some c ∧
  addModalVisible (state w') = true ∧
  w' = mkWorld
         (mkState (location (state w)) (errorMsg (state w))
            (savedPlaces (state w)) true (listModalVisible (state w))
            (newPlaceName (state w)) (newPlaceDesc (state w)) (Some c) false)
         (mapRef_current w) (permissionPending w) (watching w) (alerts w)
         (camera w) ∧
  ∀ (evs : list Event) (now : Z),
    Forall (λ ev, fillsForm ev = true) evs →
    let form := run w' evs in
    ¬ blank (newPlaceName (state form)) →
    savedPlaces (state (step form (SavePress now))) =
    savedPlaces (state w) ++
      [ SavedPlace.mk (JS.Number_toString now)
          (Coordinate.latitude c) (Coordinate.longitude c)
          (newPlaceName (state form)) (newPlaceDesc (state form)) ].
Proof.
  intros w'. repeat split.
  intros evs now Hevs form Hb.
  destruct (fillsForm_keeps evs w' Hevs) as [Hsel Hst]. fold form in Hsel, Hst.
  rewrite (save_filled form now c); [|unfold targetLocation; by rewrite Hsel|done].
  simpl. by rewrite Hst.
Qed.

Lemma map_tap_witness :
  savedPlaces (state (step (run (step mounted (MapPress (Coordinate.mk 17.80 102.75)))
                              [ChangeName (JS.lit "Cafe")])
                        (SavePress 1700000000000))) =
  [ SavedPlace.mk (JS.lit "1700000000000") 17.80 102.75 (JS.lit "Cafe") [] ].
Proof.
  destruct (map_tap mounted (Coordinate.mk 17.80 102.75)) as (_ & _ & _ & _ & H).
  rewrite (H [ChangeName (JS.lit "Cafe")] 1700000000000%Z).
  - vm_compute. reflexivity.
  - repeat constructor.
  - intros Hb. apply not_trim_blank in Hb. vm_compute in Hb. discriminate.
Defined.

(** ** Recentering *)

(** C8. With a live position known, the recenter control asks for one
    camera animation to that position, over 1000 ms, and turns tracking on,
    changing nothing else; with no live position known it changes nothing
    at all. *)
Theorem recenter (w : World) :
  reachable w →
  (∀ loc, location (state w) = Some loc →
     let w' := step w RecenterPress in
     isTracking (state w') = true ∧
     camera w' = camera w ++
       [ (Region.mk (LocationObject.latitude (LocationObject.coords loc))
                    (LocationObject.longitude (LocationObject.coords loc))
                    0.01 0.01, 1000%Z) ] ∧
     state w' =
       mkState (location (state w)) (errorMsg (state w))
         (savedPlaces (state w)) (addModalVisible (state w))
         (listModalVisible (state w)) (newPlaceName (state w))
         (newPlaceDesc (state w)) (selectedLocation (state w)) true ∧
     alerts w' = alerts w ∧ watching w' = watching w ∧
     permissionPending w' = permissionPending w) ∧
  (location (state w) = None → step w RecenterPress = w).
Proof.
  intros Hm%reachable_mapRef. split.
  - intros loc Hl w'. subst w'. unfold step, handler, recenterMap.
    rewrite Hm, Hl. simpl. rewrite ?Hl. repeat split.
  - intros Hl. unfold step, handler, recenterMap. rewrite Hl.
    by destruct (mapRef_current w).
Qed.

Lemma recenter_witness :
  let w := run mounted
             [ PermissionResolved granted; PositionUpdate here;
               MapPress (Coordinate.mk 17.80 102.75); CancelPress ] in
  isTracking (state w) = false ∧
  isTracking (state (step w RecenterPress)) = true ∧
  step mounted RecenterPress = mounted.
Proof.
  intros w. split; [vm_compute; reflexivity|].
  assert (reachable w) as Hw.
  { eexists. split; [|reflexivity]. vm_compute. reflexivity. }
  assert (reachable mounted) as Hm.
  { exists []. split; reflexivity. }
  split.
  - destruct (recenter w Hw) as [H _].
    destruct (H here) as [Ht _]; [vm_compute; reflexivity | exact Ht].
  - destruct (recenter mounted Hm) as [_ H]. apply H. reflexivity.
Defined.

(** ** The location hook *)

Lemma step_hookInv (w : World) (ev : Event) : hookInv w → hookInv (step w ev).
Proof.
  intros [Hp Hw]. unfold hookInv.
  rewrite step_location, step_watching, step_permissionPending.
  destruct ev; try done; [destruct status|];
    destruct (permissionPending w), (watching w); naive_solver.
Qed.

Lemma reachable_hookInv (w : World) : reachable w → hookInv w.
Proof.
  intros (evs & _ & ->).
  assert (hookInv mounted) as H by done.
  revert H. generalize mounted. induction evs as [|ev evs IH]; intros w H; [done|].
  apply (IH (step w ev)), step_hookInv, H.
Qed.

Lemma run_refused (evs : list Event) (w : World) :
  refused w → refused (run w evs).
Proof.
  revert w. induction evs as [|ev evs IH]; intros w H; [done|].
  apply (IH (step w ev)). destruct H as (Hp & Hw & Hl). unfold refused.
  rewrite step_location, step_watching, step_permissionPending, Hp, Hw, Hl.
  destruct ev; try done. by destruct status.
Qed.

(** C9. When the pending permission request resolves as denied, the hook
    sets the error message to the permission-denied text, shows one dialog,
    and starts no subscription; and whatever happens afterwards, no
    subscription is ever started and the exposed position stays null. *)
Theorem permission_denied (w : World) :
  reachable w → permissionPending w = true →
  let w' := step w (PermissionResolved denied) in
  errorMsg (state w') = Some (JS.lit "Permission to access location was denied") ∧
  alerts w' = alerts w ++ [permissionDenied] ∧
  watching w' = false ∧
  location (state w') = None ∧
  ∀ evs : list Event,
    watching (run w' evs) = false ∧ location (state (run w' evs)) = None.
Proof.
  intros [Hp Hw]%reachable_hookInv Hpend w'.
  specialize (Hp Hpend). specialize (Hw Hp).
  assert (refused w') as Hr.
  { unfold refused, w'.
    by rewrite step_location, step_watching, step_permissionPending. }
  subst w'. unfold step in *. rewrite Hpend in *.
  split; [done|]. split; [done|].
  destruct Hr as (_ & Hw' & Hl'). split; [done|]. split; [done|].
  intros evs. eapply run_refused. by split.
Qed.

Lemma permission_denied_witness :
  let w' := step mounted (PermissionResolved denied) in
  location (state (run w'
    [ PositionUpdate here; PermissionResolved granted; PositionUpdate here ]))
  = None ∧ alerts w' = [permissionDenied].
Proof.
  assert (reachable mounted) as Hm.
  { exists []. split; reflexivity. }
  destruct (permission_denied mounted Hm eq_refl) as (_ & Ha & _ & _ & H).
  split; [apply H | exact Ha].
Defined.

(** ** The add button *)

Lemma step_formInv (w : World) (ev : Event) :
  enabled w ev = true → formInv w → formInv (step w ev).
Proof.
  unfold formInv, enabled.
  step_cases ev; intros; simplify_eq/=; auto; congruence.
Qed.

Lemma session_formInv (evs : list Event) (w : World) :
  session w evs = true → formInv w → formInv (run w evs).
Proof.
  revert w. induction evs as [|ev evs IH]; intros w Hs Hw; [done|].
  simpl in Hs. apply andb_true_iff in Hs as [He Hs].
  apply (IH (step w ev) Hs), step_formInv; done.
Qed.

(** C5. In every state the application can reach in which the add button
    can be pressed, pressing it clears the selected coordinate and opens the
    add/edit modal with empty name and description, whatever was edited or
    cancelled before. *)
Theorem add_button (w : World) :
  reachable w → enabled w AddPress = true →
  let w' := step w AddPress in
  selectedLocation (state w') = None ∧
  addModalVisible (state w') = true ∧
  newPlaceName (state w') = [] ∧
  newPlaceDesc (state w') = [].
Proof.
  intros (evs & Hs & ->) He w'.
  assert (formInv (run mounted evs)) as Hf by (by apply session_formInv).
  unfold enabled, covered in He.
  destruct (alerts (run mounted evs)); [|done].
  apply negb_true_iff, orb_false_iff in He as [Ha _].
  destruct (Hf Ha) as [Hn Hd]. by repeat split.
Qed.

Lemma add_button_witness :
  let w := run mounted after_cancelled_edit in
  session mounted (after_cancelled_edit ++ [AddPress]) = true ∧
  newPlaceName (state (step w AddPress)) = [] ∧
  newPlaceDesc (state (step w AddPress)) = [] ∧
  addModalVisible (state (step w AddPress)) = true.
Proof.
  intros w. split; [vm_compute; reflexivity|].
  assert (reachable w) as Hw.
  { exists after_cancelled_edit. split; [vm_compute|]; reflexivity. }
  destruct (add_button w Hw) as (_ & Hv & Hn & Hd).
  - vm_compute. reflexivity.
  - split; [exact Hn|]. split; [exact Hd | exact Hv].
Defined.

(** ** Identity of the stored places *)

Lemma clocks_app (evs1 evs2 : list Event) :
  clocks (evs1 ++ evs2) = clocks evs1 ++ clocks evs2.
Proof. apply omap_app. Qed.

(** With pairwise distinct clock readings the ids stay distinct. *)
Lemma run_NoDup (evs : list Event) (w : World) :
  savedPlaces (state w) = [] →
  NoDup (clocks evs) →
  NoDup (ids (run w evs)).
Proof.
  intros Hw. induction evs as [|ev evs IH] using rev_ind; intros Hs.
  { simpl. rewrite Hw. constructor. }
  rewrite clocks_app in Hs. apply NoDup_app in Hs as (Hs & Hfresh & _).
  rewrite run_snoc. specialize (IH Hs).
  destruct (step_store (run w evs) ev)
    as [Hsub | (now & lat & lon & n & d & -> & Hst)].
  - eapply sublist_NoDup; [exact IH|]. by apply fmap_sublist.
  - rewrite Hst, fmap_app. apply NoDup_app. split; [done|].
    split; [|apply NoDup_singleton].
    intros i Hi Hnew. apply list_elem_of_singleton in Hnew. simpl in Hnew.
    apply list_elem_of_fmap in Hi as (q & -> & Hq).
    apply run_origin in Hq as [Hq | (t & Ht & Hid)].
    { rewrite Hw in Hq. by apply elem_of_nil in Hq. }
    rewrite Hid in Hnew. apply Number_toString_inj in Hnew. subst t.
    apply (Hfresh now Ht). simpl. by left.
Qed.

(** C2, as the code has it. In a session in which the clock readings taken
    by the saves are pairwise distinct, the ids in the store are pairwise
    distinct in every state; and when a stored place is opened for editing
    and a save follows, the id the save generates differs from the id of
    the removed place, and no entry of the store carries that id. *)
Theorem ids_distinct (evs : list Event) :
  NoDup (clocks evs) →
  NoDup (ids (run mounted evs)) ∧
  ∀ (evs1 evs2 : list Event) (id : jsstring) (now : Z),
    evs = evs1 ++ RowEdit id :: evs2 ++ [SavePress now] →
    hasId id (savedPlaces (state (run mounted evs1))) = true →
    JS.Number_toString now ≠ id ∧
    ∀ q, q ∈ savedPlaces (state (run mounted evs)) → SavedPlace.id q ≠ id.
Proof.
  intros Hs. split; [by apply run_NoDup|].
  intros evs1 evs2 id now -> Hid.
  apply bool_decide_eq_true, Exists_exists in Hid as (p & Hp & <-).
  apply run_origin in Hp as [Hp | (t0 & Ht0 & Hid)];
    [by apply elem_of_nil in Hp|].
  rewrite clocks_app in Hs. apply NoDup_app in Hs as (_ & Hfresh & _).
  assert (∀ t, t ∈ clocks (evs2 ++ [SavePress now]) →
               JS.Number_toString t ≠ SavedPlace.id p) as Hlater.
  { intros t Ht Heq. rewrite Hid in Heq. apply Number_toString_inj in Heq.
    subst t. by apply (Hfresh t0 Ht0). }
  split.
  - apply Hlater. rewrite clocks_app, elem_of_app. right. simpl. by left.
  - intros q Hq.
    change (evs1 ++ RowEdit (SavedPlace.id p) :: evs2 ++ [SavePress now])
      with (evs1 ++ [RowEdit (SavedPlace.id p)] ++ (evs2 ++ [SavePress now]))
      in Hq.
    rewrite run_app, run_app in Hq.
    change (run (run mounted evs1) [RowEdit (SavedPlace.id p)])
      with (step (run mounted evs1) (RowEdit (SavedPlace.id p))) in Hq.
    apply run_origin in Hq as [Hq | (t & Ht & Hq)].
    + by apply edit_clears_id in Hq.
    + rewrite Hq. by apply Hlater.
Qed.

Lemma ids_distinct_witness :
  NoDup (ids (run mounted edit_and_resave)) ∧
  ids (run mounted edit_and_resave) = [JS.lit "2000"] ∧
  JS.Number_toString 2000 ≠ JS.lit "1000".
Proof.
  assert (NoDup (clocks edit_and_resave)) as Hs.
  { apply (bool_decide_unpack _). vm_compute. reflexivity. }
  destruct (ids_distinct edit_and_resave Hs) as [Hn He].
  split; [exact Hn|]. split; [vm_compute; reflexivity|].
  refine (proj1 (He [ MapPress (Coordinate.mk 17.80 102.75);
                      ChangeName (JS.lit "A"); SavePress 1000; ListPress ]
                    [ ChangeName (JS.lit "A2") ] (JS.lit "1000") 2000%Z _ _)).
  - reflexivity.
  - vm_compute. reflexivity.
Defined.

(** C2, as stated, fails: two saves that read the same clock value give
    two entries with one id, and a save that reads the clock value of the
    place just opened for editing re-adds it under the id it had. *)
Lemma same_clock_same_id :
  let twice :=
    [ MapPress (Coordinate.mk 17.80 102.75); ChangeName (JS.lit "A");
      SavePress 1000;
      MapPress (Coordinate.mk 17.81 102.76); ChangeName (JS.lit "B");
      SavePress 1000 ] in
  let resave :=
    [ MapPress (Coordinate.mk 17.80 102.75); ChangeName (JS.lit "A");
      SavePress 1000; ListPress; RowEdit (JS.lit "1000"); SavePress 1000 ] in
  (session mounted twice = true ∧
   ids (run mounted twice) = [JS.lit "1000"; JS.lit "1000"] ∧
   ¬ NoDup (ids (run mounted twice))) ∧
  (session mounted resave = true ∧
   ids (run mounted resave) = [JS.lit "1000"]).
Proof.
  intros twice resave. split; split; try (vm_compute; reflexivity).
  split; [vm_compute; reflexivity|].
  assert (ids (run mounted twice) = [JS.lit "1000"; JS.lit "1000"]) as ->
    by (vm_compute; reflexivity).
  rewrite NoDup_cons, list_elem_of_singleton. tauto.
Qed.

(** ** Going to a place *)

(** X1. Tapping a list row closes the list modal, asks for one camera
    animation to the row's place over 1000 ms and turns tracking off; the
    store, the add form and the selection are left alone. *)
Theorem go_to_place (w : World) (place : SavedPlace.t) :
  reachable w →
  step w (RowPress place) =
  mkWorld
    (mkState (location (state w)) (errorMsg (state w)) (savedPlaces (state w))
       (addModalVisible (state w)) false (newPlaceName (state w))
       (newPlaceDesc (state w)) (selectedLocation (state w)) false)
    (mapRef_current w) (permissionPending w) (watching w) (alerts w)
    (camera w ++
       [ (Region.mk (SavedPlace.latitude place) (SavedPlace.longitude place)
            0.01 0.01, 1000%Z) ]).
Proof.
  intros Hm%reachable_mapRef. unfold step, handler, goToPlace.
  rewrite Hm. simpl. by rewrite Hm.
Qed.

Lemma go_to_place_witness :
  camera (step two_places (RowPress place_B)) =
  [ (Region.mk 17.81 102.76 0.01 0.01, 1000%Z) ] ∧
  listModalVisible (state (step two_places (RowPress place_B))) = false ∧
  isTracking (state (step two_places (RowPress place_B))) = false.
Proof.
  assert (reachable two_places) as Hw.
  { eexists. split; [|reflexivity]. vm_compute. reflexivity. }
  rewrite (go_to_place two_places place_B Hw). vm_compute. repeat split.
Defined.

(** ** Cancelling *)

(** X2. Cancel closes the add/edit modal and empties the name, the
    description and the selection, whatever they held; it never touches the
    store, the list modal, the tracking flag or the position; and a second
    cancel changes nothing more. *)
Theorem cancel_clears_form (w : World) :
  let w' := step w CancelPress in
  w' = mkWorld
         (mkState (location (state w)) (errorMsg (state w))
            (savedPlaces (state w)) false (listModalVisible (state w))
            [] [] None (isTracking (state w)))
         (mapRef_current w) (permissionPending w) (watching w) (alerts w)
         (camera w) ∧
  step w' CancelPress = w'.
Proof. done. Qed.

Lemma step_selectionInv (w : World) (ev : Event) :
  selectionInv w → selectionInv (step w ev).
Proof.
  unfold selectionInv.
  step_cases ev; intros; simplify_eq/=; auto; congruence.
Qed.

Lemma run_selectionInv (evs : list Event) (w : World) :
  selectionInv w → selectionInv (run w evs).
Proof.
  revert w. induction evs as [|ev evs IH]; intros w Hw; [done|].
  apply (IH (step w ev)), step_selectionInv, Hw.
Qed.

(** X3. In a state the application can reach, tapping the map and then
    cancelling brings back the state before the tap with one difference:
    tracking is off. *)
Theorem tap_then_cancel (w : World) (c : Coordinate.t) :
  reachable w → enabled w (MapPress c) = true →
  step (step w (MapPress c)) CancelPress = execAll w [ setIsTracking false ].
Proof.
  intros (evs & Hs & ->) He.
  assert (formInv (run mounted evs)) as Hf by (by apply session_formInv).
  assert (selectionInv (run mounted evs)) as Hsel
    by (by apply run_selectionInv).
  assert (addModalVisible (state (run mounted evs)) = false) as Ha.
  { unfold enabled, covered in He.
    destruct (alerts (run mounted evs)); [|done].
    by apply negb_true_iff, orb_false_iff in He as [Ha _]. }
  destruct (Hf Ha) as [Hn Hd]. specialize (Hsel Ha). clear He Hf Hs.
  destruct (run mounted evs) as [[] ? ? ? ? ?]. simpl in *. by subst.
Qed.

Lemma tap_then_cancel_witness :
  let w := run mounted after_cancelled_edit in
  let w' := step (step w (MapPress (Coordinate.mk 17.9 102.8))) CancelPress in
  isTracking (state w') = false ∧
  savedPlaces (state w') = savedPlaces (state w) ∧
  addModalVisible (state w') = false.
Proof.
  intros w w'.
  assert (reachable w) as Hw.
  { exists after_cancelled_edit. split; [vm_compute|]; reflexivity. }
  subst w'. rewrite (tap_then_cancel w (Coordinate.mk 17.9 102.8) Hw).
  - vm_compute. repeat split.
  - vm_compute. reflexivity.
Defined.

(** ** How the store grows *)

(** A save that adds an entry adds one whose name is not blank. *)
Lemma step_store_named (w : World) (ev : Event) :
  savedPlaces (state (step w ev)) `sublist_of` savedPlaces (state w) ∨
  ∃ now lat lon n d,
    ev = SavePress now ∧ ¬ blank n ∧
    savedPlaces (state (step w ev)) =
    savedPlaces (state w) ++ [SavedPlace.mk (JS.Number_toString now) lat lon n d].
Proof.
  destruct (step_store w ev) as [Hsub | (now & _ & _ & _ & _ & -> & _)];
    [by left|].
  destruct (targetLocation (state w)) as [target|] eqn:Ht.
  - destruct (JS.not_string (JS.trim (newPlaceName (state w)))) eqn:Hb.
    + left. apply not_trim_blank in Hb. by rewrite save_blank.
    + right. apply not_trim_filled in Hb.
      rewrite (save_filled w now target Ht Hb). simpl. by eauto 10.
  - left. by rewrite save_no_target.
Qed.

(** X4. Only saves add to the store, one entry each at most: over any
    sequence of events the store grows by no more than the number of saves,
    and over a sequence without a save what is left is a sub-sequence of
    what was there, in the same order. *)
Theorem store_growth (evs : list Event) (w : World) :
  length (savedPlaces (state (run w evs))) ≤
    length (savedPlaces (state w)) + length (clocks evs) ∧
  (clocks evs = [] →
   savedPlaces (state (run w evs)) `sublist_of` savedPlaces (state w)).
Proof.
  revert w. induction evs as [|ev evs IH]; intros w.
  { split; [simpl; lia | done]. }
  change (run w (ev :: evs)) with (run (step w ev) evs).
  destruct (IH (step w ev)) as [Hlen Hsub].
  destruct (step_store w ev) as [Hs | (now & lat & lon & n & d & -> & Hst)].
  - split.
    + apply sublist_length in Hs.
      assert (length (clocks evs) ≤ length (clocks (ev :: evs))) as Hc.
      { unfold clocks. destruct ev; csimpl; lia. }
      revert Hc Hlen Hs.
      generalize (length (clocks (ev :: evs))) (length (clocks evs)). lia.
    + intros Hc. etrans; [apply Hsub|exact Hs].
      unfold clocks in *. simpl in Hc. by destruct ev.
  - split; [|done]. rewrite Hst, length_app in Hlen. simpl in *. lia.
Qed.

Lemma store_growth_witness :
  savedPlaces (state (run two_places
    [ RowDelete (JS.lit "1000"); AlertPress 1; ListClose; AddPress ]))
  `sublist_of` [place_A; place_B].
Proof.
  apply (store_growth
           [ RowDelete (JS.lit "1000"); AlertPress 1; ListClose; AddPress ]
           two_places).
  reflexivity.
Defined.

(** X5. Whatever the events, every place in the store has a name that is
    not blank and an id that is the decimal rendering of the clock reading
    of one of the session's saves. *)
Theorem stored_places_wellformed (evs : list Event) (p : SavedPlace.t) :
  p ∈ savedPlaces (state (run mounted evs)) →
  ¬ blank (SavedPlace.name p) ∧
  ∃ t, t ∈ clocks evs ∧ SavedPlace.id p = JS.Number_toString t.
Proof.
  intros Hp. split.
  - revert Hp. induction evs as [|ev evs IH] using rev_ind.
    { intros Hp. by apply elem_of_nil in Hp. }
    rewrite run_snoc.
    destruct (step_store_named (run mounted evs) ev)
      as [Hs | (now & lat & lon & n & d & -> & Hn & Hst)].
    + intros Hp. apply IH. by eapply elem_of_sublist.
    + rewrite Hst, elem_of_app, list_elem_of_singleton.
      intros [Hp | ->]; [by apply IH | done].
  - apply run_origin in Hp as [Hp | Hp]; [|done].
    by apply elem_of_nil in Hp.
Qed.

Lemma stored_places_wellformed_witness :
  ¬ blank (SavedPlace.name place_B) ∧
  ∃ t, t ∈ [1000; 2000]%Z ∧ SavedPlace.id place_B = JS.Number_toString t.
Proof.
  apply (stored_places_wellformed
    [ MapPress (Coordinate.mk 17.80 102.75); ChangeName (JS.lit "A");
      SavePress 1000;
      MapPress (Coordinate.mk 17.81 102.76); ChangeName (JS.lit "B");
      ChangeDesc (JS.lit "second"); SavePress 2000;
      ListPress ] place_B).
  change (place_B ∈ [place_A; place_B]). right. left.
Defined.

(** ** The position subscription *)

Lemma step_errorMsg (w : World) (ev : Event) :
  errorMsg (state (step w ev)) =
  match ev with
  | PermissionResolved status =>
      if permissionPending w then
        match status with
        | granted => errorMsg (state w)
        | _ => Some (JS.lit "Permission to access location was denied")
        end
      else errorMsg (state w)
  | _ => errorMsg (state w)
  end.
Proof. step_cases ev. Qed.

Lemma run_watching (evs : list Event) (w : World) :
  watching w = true → watching (run w evs) = true.
Proof.
  revert w. induction evs as [|ev evs IH]; intros w Hw; [done|].
  apply (IH (step w ev)). rewrite step_watching, Hw. destruct ev; try done.
  destruct status; by rewrite ?orb_true_r.
Qed.

Lemma run_location (evs : list Event) (w : World) :
  watching w = true →
  location (state (run w evs)) =
  match last (samples evs) with
  | Some loc => Some loc
  | None => location (state w)
  end.
Proof.
  revert w. induction evs as [|ev evs IH]; intros w Hw; [done|].
  change (run w (ev :: evs)) with (run (step w ev) evs).
  rewrite IH by apply (run_watching [ev] w Hw).
  rewrite step_location, Hw. destruct ev; try done.
  unfold samples. simpl. rewrite last_cons. by destruct (last _).
Qed.

(** X6. Once the subscription is started it is never stopped, and the
    exposed position is always the latest sample delivered: no other event
    writes it, and no history is kept. *)
Theorem latest_position (evs : list Event) (w : World) :
  watching w = true →
  watching (run w evs) = true ∧
  location (state (run w evs)) =
  match last (samples evs) with
  | Some loc => Some loc
  | None => location (state w)
  end.
Proof.
  intros Hw. split.
  - by apply run_watching.
  - by apply run_location.
Qed.

Lemma latest_position_witness :
  location (state (run (step mounted (PermissionResolved granted))
    [ PositionUpdate here; MapPress (Coordinate.mk 17.9 102.8);
      PositionUpdate
        (LocationObject.mk (LocationObject.mkCoords 17.9 102.8) 1700000003000);
      CancelPress ]))
  = Some (LocationObject.mk (LocationObject.mkCoords 17.9 102.8) 1700000003000).
Proof.
  refine (proj2 (latest_position _ _ _)). reflexivity.
Defined.

(** X7. When the pending permission request resolves as granted, the hook
    starts the subscription and does nothing else: no error message, no
    dialog, no state change; from then on each delivered sample becomes
    the exposed position. *)
Theorem permission_granted (w : World) :
  permissionPending w = true →
  let w' := step w (PermissionResolved granted) in
  watching w' = true ∧ permissionPending w' = false ∧
  state w' = state w ∧ alerts w' = alerts w ∧ camera w' = camera w ∧
  ∀ (evs : list Event) (loc : LocationObject.t),
    location (state (run w' (evs ++ [PositionUpdate loc]))) = Some loc.
Proof.
  intros Hp w'.
  assert (watching w' = true) as Hw.
  { unfold w'. by rewrite step_watching, Hp. }
  split; [done|]. subst w'. unfold step in *. rewrite Hp in *.
  repeat split.
  intros evs loc. rewrite run_snoc, step_location.
  by rewrite (run_watching evs _ Hw).
Qed.

Lemma permission_granted_witness :
  location (state (run (step mounted (PermissionResolved granted))
                     ([ListPress; ListClose] ++ [PositionUpdate here])))
  = Some here.
Proof.
  destruct (permission_granted mounted eq_refl) as (_ & _ & _ & _ & _ & H).
  apply H.
Defined.

Lemma step_errorInv (w : World) (ev : Event) :
  hookInv w → errorInv w → errorInv (step w ev).
Proof.
  unfold errorInv. intros [Hh _].
  rewrite step_errorMsg, step_watching, step_permissionPending.
  intros H m.
  destruct ev; try apply H.
  destruct (permissionPending w) eqn:Hp, status; intros Hm;
    try (destruct (H m Hm) as (? & ? & ?); done);
    simplify_eq; repeat split; try done; by apply Hh.
Qed.

(** X8. In every state the application goes through, an error message, if
    there is one, is the permission-denied text, and it excludes a position:
    no subscription runs and the exposed position is null. *)
Theorem error_excludes_position (evs : list Event) (m : jsstring) :
  errorMsg (state (run mounted evs)) = Some m →
  m = JS.lit "Permission to access location was denied" ∧
  watching (run mounted evs) = false ∧
  location (state (run mounted evs)) = None.
Proof.
  assert (errorInv (run mounted evs) ∧ hookInv (run mounted evs)) as [He Hh].
  { assert (errorInv mounted ∧ hookInv mounted) as H by done.
    revert H. generalize mounted.
    induction evs as [|ev evs IH]; intros w [H1 H2]; [done|].
    apply (IH (step w ev)). split; [by apply step_errorInv|by apply step_hookInv]. }
  intros Hm. destruct (He m Hm) as (-> & _ & Hw).
  split; [done|]. split; [done|]. by apply Hh.
Qed.

Lemma error_excludes_position_witness :
  location (state (run mounted
    [ PermissionResolved undetermined; PositionUpdate here; AlertPress 0 ]))
  = None.
Proof.
  refine (proj2 (proj2 (error_excludes_position _ _ _))).
  vm_compute. reflexivity.
Defined.

(** ** What the map shows *)

(** X9. With a live position known, in a state the application can reach:
    after the recenter control the user's pin is drawn with its accuracy
    circle of radius 25 around the position; after a map tap, a row tap or
    the edit action on a stored id the pin is drawn alone. *)
Theorem halo_follows_tracking (w : World) (loc : LocationObject.t) :
  reachable w → location (state w) = Some loc →
  let at_user :=
    Coordinate.mk (LocationObject.latitude (LocationObject.coords loc))
                  (LocationObject.longitude (LocationObject.coords loc)) in
  let pin :=
    Marker None at_user (Some (JS.lit "You are here"))
      (Some (JS.lit "Current Location")) (JS.lit "#005becff") in
  renderUserMarker (state (step w RecenterPress)) =
    [ Circle at_user 25 (JS.lit "rgba(66,133,244,0.5)")
        (JS.lit "rgba(66,133,244,0.3)"); pin ] ∧
  (∀ c, renderUserMarker (state (step w (MapPress c))) = [pin]) ∧
  (∀ p, renderUserMarker (state (step w (RowPress p))) = [pin]) ∧
  (∀ id, hasId id (savedPlaces (state w)) = true →
         renderUserMarker (state (step w (RowEdit id))) = [pin]).
Proof.
  intros Hm%reachable_mapRef Hl at_user pin.
  unfold renderUserMarker. split; [|split; [|split]].
  - unfold step, handler, recenterMap. rewrite Hm, Hl. simpl. by rewrite Hl.
  - intros c. simpl. by rewrite Hl.
  - intros p. unfold step, handler, goToPlace. rewrite Hm. simpl. by rewrite Hl.
  - intros id Hid.
    apply bool_decide_eq_true, Exists_exists in Hid as (p & Hp & Hpid).
    destruct (findPlace id (savedPlaces (state w))) as [place|] eqn:Hf.
    + rewrite (edit_found _ _ _ Hf). simpl. by rewrite Hl.
    + by destruct (proj1 (findPlace_None _ _) Hf p Hp).
Qed.

Lemma halo_follows_tracking_witness :
  let w := run mounted [ PermissionResolved granted; PositionUpdate here ] in
  renderUserMarker (state (step w (MapPress (Coordinate.mk 17.9 102.8)))) =
  [ Marker None (Coordinate.mk 17.8 102.7) (Some (JS.lit "You are here"))
      (Some (JS.lit "Current Location")) (JS.lit "#005becff") ].
Proof.
  intros w.
  assert (reachable w) as Hw.
  { eexists. split; [|reflexivity]. vm_compute. reflexivity. }
  destruct (halo_follows_tracking w here Hw eq_refl) as (_ & H & _).
  apply H.
Defined.

(** X10. The pin of the selected location is drawn only while the
    add/edit modal is open: in every state the application goes through
    with the modal closed no such pin is rendered; and a map tap renders it
    at the tapped coordinate. *)
Theorem selected_pin_only_in_modal (evs : list Event) :
  (addModalVisible (state (run mounted evs)) = false →
   renderSelectedLocationMarker (state (run mounted evs)) = []) ∧
  ∀ c, renderSelectedLocationMarker
         (state (step (run mounted evs) (MapPress c))) =
       [ Marker None c None None (JS.lit "#f2ff00ff") ].
Proof.
  split; [|done].
  intros Ha. unfold renderSelectedLocationMarker.
  by rewrite (run_selectionInv evs mounted (λ _, eq_refl) Ha).
Qed.

Lemma selected_pin_only_in_modal_witness :
  renderSelectedLocationMarker (state (run mounted after_cancelled_edit)) = [].
Proof.
  refine (proj1 (selected_pin_only_in_modal after_cancelled_edit) _).
  vm_compute. reflexivity.
Defined.

(** ** The rows of the list *)

Lemma rows_fmap (s : State) : rows s = renderListItem <$> savedPlaces s.
Proof. unfold rows, listBody. by destruct (savedPlaces s). Qed.

(** X11. Every row the list renders stands for a stored place: its key is
    the place's id and its title the place's name. Its edit action always
    finds a place, so it opens the form and takes at least one entry, and
    every entry with the row's key, out of the store; its delete action
    asks for confirmation for the row's key. *)
Theorem row_actions (w : World) (r : Row.t) :
  r ∈ rows (state w) →
  (∃ p, p ∈ savedPlaces (state w) ∧ Row.key r = SavedPlace.id p ∧
        Row.title r = SavedPlace.name p ∧ Row.onPress r = RowPress p) ∧
  addModalVisible (state (step w (Row.onEdit r))) = true ∧
  length (savedPlaces (state (step w (Row.onEdit r)))) <
    length (savedPlaces (state w)) ∧
  (∀ q, q ∈ savedPlaces (state (step w (Row.onEdit r))) →
        SavedPlace.id q ≠ Row.key r) ∧
  alerts (step w (Row.onDelete r)) = alerts w ++ [deletePrompt (Row.key r)].
Proof.
  rewrite rows_fmap. intros (p & -> & Hp)%list_elem_of_fmap.
  change (Row.onEdit (renderListItem p)) with (RowEdit (SavedPlace.id p)).
  change (Row.onDelete (renderListItem p)) with (RowDelete (SavedPlace.id p)).
  change (Row.key (renderListItem p)) with (SavedPlace.id p).
  split; [by exists p|].
  destruct (findPlace (SavedPlace.id p) (savedPlaces (state w)))
    as [place|] eqn:Hf;
    [|by destruct (proj1 (findPlace_None _ _) Hf p Hp)].
  split; [by rewrite (edit_found _ _ _ Hf)|].
  split; [|split; [apply edit_clears_id | done]].
  rewrite (edit_found _ _ _ Hf). simpl.
  apply (length_filter_lt _ _ p); [done|]. by intros H.
Qed.

Lemma row_actions_witness :
  let r := renderListItem place_B in
  length (savedPlaces (state (step two_places (Row.onEdit r)))) < 2 ∧
  addModalVisible (state (step two_places (Row.onEdit r))) = true.
Proof.
  intros r.
  assert (r ∈ rows (state two_places)) as Hr.
  { change (r ∈ [renderListItem place_A; renderListItem place_B]).
    right. left. }
  destruct (row_actions two_places r Hr) as (_ & Hv & Hl & _).
  split; [exact Hl | exact Hv].
Defined.

(** ** Composing the store operations *)

(** X12. Confirmed deletions commute and repeat harmlessly: running the
    confirmation closures for two ids in either order leaves the same
    state, and running one twice is the same as running it once. *)
Theorem delete_confirmations_commute (w : World) (a b : jsstring) :
  execAll (execAll w (callback (DeleteConfirmed a))) (callback (DeleteConfirmed b))
  = execAll (execAll w (callback (DeleteConfirmed b))) (callback (DeleteConfirmed a)) ∧
  execAll (execAll w (callback (DeleteConfirmed a))) (callback (DeleteConfirmed a))
  = execAll w (callback (DeleteConfirmed a)).
Proof.
  unfold execAll. simpl. split; do 2 f_equal.
  - rewrite !list_filter_filter. apply list_filter_iff. tauto.
  - rewrite list_filter_filter. apply list_filter_iff. tauto.
Qed.

(** X13. Editing a stored place whose id no other entry shares and saving
    the form as it was pre-filled moves the place to the end of the store
    under a new id, the clock reading of the save, with its name,
    description and coordinate kept; the other entries keep their order,
    and the modal is closed with the form cleared. *)
Theorem edit_then_save (w : World) (l1 l2 : list SavedPlace.t)
    (p : SavedPlace.t) (now : Z) :
  savedPlaces (state w) = l1 ++ p :: l2 →
  (∀ q, q ∈ l1 ++ l2 → SavedPlace.id q ≠ SavedPlace.id p) →
  ¬ blank (SavedPlace.name p) →
  let w' := step (step w (RowEdit (SavedPlace.id p))) (SavePress now) in
  savedPlaces (state w') = l1 ++ l2 ++ [resaved now p] ∧
  addModalVisible (state w') = false ∧
  newPlaceName (state w') = [] ∧ newPlaceDesc (state w') = [] ∧
  selectedLocation (state w') = None.
Proof.
  intros Hl Hu Hb w'. subst w'.
  rewrite (edit_found w (SavedPlace.id p) p).
  - rewrite (save_filled _ now
               (Coordinate.mk (SavedPlace.latitude p) (SavedPlace.longitude p)));
      [|done|done].
    simpl. rewrite Hl, removeId_only by done. by rewrite <- app_assoc.
  - rewrite Hl. apply findPlace_first. intros q Hq. apply Hu.
    rewrite elem_of_app. by left.
Qed.

Lemma edit_then_save_witness :
  savedPlaces (state (step (step two_places (RowEdit (JS.lit "1000")))
                        (SavePress 3000))) =
  [ place_B; SavedPlace.mk (JS.lit "3000") 17.80 102.75 (JS.lit "A") [] ].
Proof.
  destruct (edit_then_save two_places [] [place_B] place_A 3000) as [H _].
  - vm_compute. reflexivity.
  - intros q Hq. apply list_elem_of_singleton in Hq. subst q.
    vm_compute. discriminate.
  - intros Hb. apply not_trim_blank in Hb. vm_compute in Hb. discriminate.
  - exact H.
Defined.

(** ** Tracking *)

Lemma step_tracking_off (w : World) (ev : Event) :
  ev ≠ RecenterPress → isTracking (state w) = false →
  isTracking (state (step w ev)) = false.
Proof. step_cases ev. Qed.

(** X14. Only the recenter control turns tracking on: once tracking is
    off it stays off over any sequence of events that has no recenter
    press in it. *)
Theorem tracking_only_by_recenter (evs : list Event) (w : World) :
  isTracking (state w) = false → RecenterPress ∉ evs →
  isTracking (state (run w evs)) = false.
Proof.
  revert w. induction evs as [|ev evs IH]; intros w Hw Hevs; [done|].
  apply not_elem_of_cons in Hevs as [Hev Hevs].
  apply (IH (step w ev)); [|done]. by apply step_tracking_off.
Qed.

Lemma tracking_only_by_recenter_witness :
  isTracking (state (run (step mounted (MapPress (Coordinate.mk 17.9 102.8)))
    [ ChangeName (JS.lit "Cafe"); SavePress 1000; ListPress; ListClose;
      AddPress; CancelPress ])) = false.
Proof.
  apply tracking_only_by_recenter; [reflexivity|].
  repeat (apply not_elem_of_cons; split; [discriminate|]).
  apply not_elem_of_nil.
Defined.

(** ** Saving the current location *)

(** X15. A save from the add button targets the position known when Save
    is pressed, not the one known when the modal was opened: with the
    subscription running, after the add button and any typing and position
    samples, a save with a name that is not blank stores the place at the
    latest sample. *)
Theorem save_from_add_button (w : World) (evs : list Event) (now : Z)
    (loc : LocationObject.t) :
  watching w = true →
  Forall (λ ev, fillsForm ev = true) evs →
  last (samples evs) = Some loc →
  let form := run (step w AddPress) evs in
  ¬ blank (newPlaceName (state form)) →
  savedPlaces (state (step form (SavePress now))) =
  savedPlaces (state w) ++
    [ SavedPlace.mk (JS.Number_toString now)
        (LocationObject.latitude (LocationObject.coords loc))
        (LocationObject.longitude (LocationObject.coords loc))
        (newPlaceName (state form)) (newPlaceDesc (state form)) ].
Proof.
  intros Hw Hevs Hlast form Hb.
  destruct (fillsForm_keeps evs (step w AddPress) Hevs) as [Hsel Hst].
  pose proof (run_location evs (step w AddPress) Hw) as Hloc.
  rewrite Hlast in Hloc. fold form in Hsel, Hst, Hloc.
  rewrite (save_filled form now
             (Coordinate.mk (LocationObject.latitude (LocationObject.coords loc))
                            (LocationObject.longitude (LocationObject.coords loc))));
    [|unfold targetLocation; by rewrite Hsel, Hloc|done].
  simpl. by rewrite Hst.
Qed.

Lemma save_from_add_button_witness :
  savedPlaces (state (step
    (run (step (run mounted [PermissionResolved granted; PositionUpdate here])
            AddPress)
       [ ChangeName (JS.lit "Home");
         PositionUpdate
           (LocationObject.mk (LocationObject.mkCoords 17.9 102.8) 1700000003000) ])
    (SavePress 1700000004000))) =
  [ SavedPlace.mk (JS.lit "1700000004000") 17.9 102.8 (JS.lit "Home") [] ].
Proof.
  rewrite (save_from_add_button
             (run mounted [PermissionResolved granted; PositionUpdate here])
             [ ChangeName (JS.lit "Home");
               PositionUpdate
                 (LocationObject.mk (LocationObject.mkCoords 17.9 102.8)
                    1700000003000) ]
             1700000004000
             (LocationObject.mk (LocationObject.mkCoords 17.9 102.8)
                1700000003000)).
  - vm_compute. reflexivity.
  - reflexivity.
  - repeat constructor.
  - reflexivity.
  - intros Hb. apply not_trim_blank in Hb. vm_compute in Hb. discriminate.
Defined.

(** ** Keys of the rendered places *)

(** X16. The map draws one marker and the list one row per stored place,
    in store order, keyed by the place's id; in a session whose saves read
    pairwise distinct clock values these keys are pairwise distinct. *)
Theorem rendered_keys (evs : list Event) :
  NoDup (clocks evs) →
  let s := state (run mounted evs) in
  childKey <$> renderSavedPlacesMarkers s = Some <$> (SavedPlace.id <$> savedPlaces s) ∧
  Row.key <$> rows s = SavedPlace.id <$> savedPlaces s ∧
  NoDup (childKey <$> renderSavedPlacesMarkers s) ∧
  NoDup (Row.key <$> rows s).
Proof.
  intros Hc s.
  assert (NoDup (SavedPlace.id <$> savedPlaces s)) as Hn
    by (by apply run_NoDup).
  assert (childKey <$> renderSavedPlacesMarkers s =
          Some <$> (SavedPlace.id <$> savedPlaces s)) as Hm.
  { unfold renderSavedPlacesMarkers. rewrite <- !list_fmap_compose.
    by apply list_fmap_ext. }
  assert (Row.key <$> rows s = SavedPlace.id <$> savedPlaces s) as Hr.
  { rewrite rows_fmap, <- list_fmap_compose. by apply list_fmap_ext. }
  split; [done|]. split; [done|]. rewrite Hm, Hr. split; [|done].
  by apply (NoDup_fmap_2 Some).
Qed.

Lemma rendered_keys_witness :
  Row.key <$> rows (state (run mounted edit_and_resave)) = [JS.lit "2000"].
Proof.
  assert (NoDup (clocks edit_and_resave)) as Hs.
  { apply (bool_decide_unpack _). vm_compute. reflexivity. }
  destruct (rendered_keys edit_and_resave Hs) as (_ & Hr & _).
  rewrite Hr. vm_compute. reflexivity.
Defined.
